(** * Black-Scholes pricing engine ([bs_model.py]): shallow embedding

    The engine is a namespace of static functions over Python and NumPy
    floats.  It is embedded twice.

    In [BlackScholesModel] floats are real numbers ([R]) and every
    arithmetic operation is the exact one: this is the embedding for the
    formulas, on the domain where they are finite ([S], [K], [sigma], [T]
    positive).  Rounding and overflow are outside the model.

    In [Ieee] a float is a finite number, a signed zero, an infinity or NaN,
    and the exponential underflows to zero: this is the embedding for what
    the scalar functions do with inputs outside the domain, and for results
    that underflow.  On the domain, and short of underflow, the two agree
    ([ieee_d1_d2], [ieee_option_price], [ieee_greeks]).

    Python exceptions, dictionaries, strings and integers are embedded as
    they are. *)

From Stdlib Require Import Reals Lra Lia ZArith String Ascii List Bool.
Import ListNotations.
Local Open Scope R_scope.

(** ** Python layer: exceptions, dictionaries, strings *)

Module Py.

(** The exceptions the engine (and the library calls it makes) can raise. *)
Inductive exn : Set :=
| KeyError (key : string)
| ValueError
| UnboundLocalError (name : string)
| ZeroDivisionError
| OverflowError.

Inductive result (A : Type) : Type :=
| Ok (a : A)
| Raise (e : exn).
Arguments Ok {A} a.
Arguments Raise {A} e.

Definition bind {A B : Type} (m : result A) (k : A -> result B) : result B :=
  match m with
  | Ok a => k a
  | Raise e => Raise e
  end.

(** A [dict] with string keys keeps its items in insertion order. *)
Definition dict (V : Type) : Type := list (string * V).

Fixpoint dict_get {V : Type} (d : dict V) (k : string) : result V :=
  match d with
  | [] => Raise (KeyError k)
  | (k', v) :: d' => if String.eqb k' k then Ok v else dict_get d' k
  end.

(** [d[k] = v]: overwrite in place, or append a new item. *)
Fixpoint dict_set {V : Type} (d : dict V) (k : string) (v : V) : dict V :=
  match d with
  | [] => [(k, v)]
  | (k', v') :: d' =>
      if String.eqb k' k then (k', v) :: d' else (k', v') :: dict_set d' k v
  end.

(** [str.lower] on ASCII text: the letters A-Z are mapped to a-z. *)
Definition lower_ascii (c : ascii) : ascii :=
  let n := nat_of_ascii c in
  if (65 <=? n)%nat && (n <=? 90)%nat then ascii_of_nat (n + 32) else c.

Fixpoint lower (s : string) : string :=
  match s with
  | EmptyString => EmptyString
  | String c s' => String (lower_ascii c) (lower s')
  end.

End Py.

Import Py.

Declare Scope py_scope.
Notation "x <- m ;; k" := (Py.bind m (fun x => k))
  (at level 61, m at next level, right associativity) : py_scope.
Local Open Scope py_scope.
Local Open Scope string_scope.
Local Open Scope list_scope.

(** ** NumPy and SciPy functions used by the engine *)

(** [y[-1] = v] on a non-empty array. *)
Fixpoint set_last (y : list R) (v : R) : list R :=
  match y with
  | [] => []
  | [_] => [v]
  | a :: y' => a :: set_last y' v
  end.

(** [np.linspace(start, stop, num)] for scalar bounds, following the
    library's steps: [arange(0, num)] scaled by the step, shifted by
    [start], and the last sample overwritten with [stop]. *)
Definition linspace (start stop : R) (num : Z) : result (list R) :=
  if (num <? 0)%Z then Raise ValueError
  else
    let div := (num - 1)%Z in
    let delta := stop - start in
    let y := map INR (seq 0 (Z.to_nat num)) in
    let y :=
      if (0 <? div)%Z then map (fun v => v * (delta / IZR div)) y
      else map (fun v => v * delta) y in
    let y := map (fun v => v + start) y in
    Ok (if (1 <? num)%Z then set_last y stop else y).

(** [scipy.stats.norm.pdf]: the standard normal density. *)
Definition norm_pdf (x : R) : R := exp (- (x * x) / 2) / sqrt (2 * PI).

Lemma norm_pdf_continuity : continuity norm_pdf.
Proof.
  unfold norm_pdf. intro x. reg.
Qed.

Lemma norm_pdf_integrable (a b : R) : Riemann_integrable norm_pdf a b.
Proof.
  destruct (Rle_dec a b) as [Hab | Hab].
  - apply continuity_implies_RiemannInt; [exact Hab |].
    intros x _. apply norm_pdf_continuity.
  - apply RiemannInt_P1, continuity_implies_RiemannInt; [lra |].
    intros x _. apply norm_pdf_continuity.
Qed.

(** [scipy.stats.norm.cdf]: the standard normal distribution function,
    one half plus the integral of the density from 0 to [x]. *)
Definition norm_cdf (x : R) : R := 1 / 2 + RiemannInt (norm_pdf_integrable 0 x).

(** ** IEEE double-precision values

    Where a property depends on an input outside the domain of the formulas,
    or on a result that underflows to zero, a float is a finite number, the
    negative zero, an infinity or NaN.  Finite values are real numbers and
    their arithmetic is the exact one, so rounding and overflow stay outside
    the model; the special values follow IEEE 754.  [Fin 0] is the positive
    zero. *)
Inductive float64 : Type :=
| Fin (x : R)
| NegZero
| Inf (negative : bool)
| NaN.

Definition is_zero (v : float64) : bool :=
  match v with
  | Fin x => if Req_dec_T x 0 then true else false
  | NegZero => true
  | _ => false
  end.

(** The sign bit. *)
Definition signbit (v : float64) : bool :=
  match v with
  | Fin x => if Rlt_dec x 0 then true else false
  | NegZero => true
  | Inf negative => negative
  | NaN => false
  end.

Definition signed_zero (negative : bool) : float64 :=
  if negative then NegZero else Fin 0.

Definition fneg (v : float64) : float64 :=
  match v with
  | Fin x => if Req_dec_T x 0 then NegZero else Fin (- x)
  | NegZero => Fin 0
  | Inf negative => Inf (negb negative)
  | NaN => NaN
  end.

Definition fadd (a b : float64) : float64 :=
  match a, b with
  | NaN, _ | _, NaN => NaN
  | Inf s, Inf t => if Bool.eqb s t then Inf s else NaN
  | Inf s, _ => Inf s
  | _, Inf t => Inf t
  | NegZero, NegZero => NegZero
  | NegZero, Fin y => Fin y
  | Fin x, NegZero => Fin x
  | Fin x, Fin y => Fin (x + y)
  end.

Definition fsub (a b : float64) : float64 := fadd a (fneg b).

Definition fmul (a b : float64) : float64 :=
  match a, b with
  | NaN, _ | _, NaN => NaN
  | Inf s, v | v, Inf s =>
      if is_zero v then NaN else Inf (xorb s (signbit v))
  | Fin x, Fin y =>
      if is_zero a || is_zero b then signed_zero (xorb (signbit a) (signbit b))
      else Fin (x * y)
  | _, _ => signed_zero (xorb (signbit a) (signbit b))
  end.

(** Division of NumPy floats: a zero divisor gives an infinity or NaN. *)
Definition fdiv (a b : float64) : float64 :=
  match a, b with
  | NaN, _ | _, NaN => NaN
  | Inf _, Inf _ => NaN
  | Inf s, _ => Inf (xorb s (signbit b))
  | _, Inf t => signed_zero (xorb (signbit a) t)
  | _, _ =>
      if is_zero b then
        if is_zero a then NaN else Inf (xorb (signbit a) (signbit b))
      else
        match a, b with
        | Fin x, Fin y =>
            if is_zero a then signed_zero (xorb (signbit a) (signbit b))
            else Fin (x / y)
        | _, _ => signed_zero (xorb (signbit a) (signbit b))
        end
  end.

(** [np.log] *)
Definition flog (v : float64) : float64 :=
  match v with
  | Fin x =>
      if Req_dec_T x 0 then Inf true
      else if Rlt_dec x 0 then NaN
      else Fin (ln x)
  | NegZero => Inf true
  | Inf false => Inf false
  | Inf true => NaN
  | NaN => NaN
  end.

(** [np.sqrt] *)
Definition fsqrt (v : float64) : float64 :=
  match v with
  | Fin x => if Rlt_dec x 0 then NaN else Fin (sqrt x)
  | NegZero => NegZero
  | Inf false => Inf false
  | Inf true => NaN
  | NaN => NaN
  end.

(** [np.exp].  The exponential of a double below -746 is under half the
    least positive double, 2^-1075, and the result is the positive zero. *)
Definition exp_underflow : R := -746.

Definition fexp (v : float64) : float64 :=
  match v with
  | Fin x => if Rlt_dec x exp_underflow then Fin 0 else Fin (exp x)
  | NegZero => Fin 1
  | Inf false => Inf false
  | Inf true => Fin 0
  | NaN => NaN
  end.

(** [scipy.stats.norm.cdf] and [scipy.stats.norm.pdf] on a NumPy float: the
    distribution function is 0 and 1 at the infinities, the density is
    exp(-x**2/2) over sqrt(2 pi) on finite arguments and 0 at the infinities;
    NaN gives NaN. *)
Definition fcdf (v : float64) : float64 :=
  match v with
  | Fin x => Fin (norm_cdf x)
  | NegZero => Fin (norm_cdf 0)
  | Inf false => Fin 1
  | Inf true => Fin 0
  | NaN => NaN
  end.

Definition fpdf (v : float64) : float64 :=
  match v with
  | Fin _ | NegZero =>
      fdiv (fexp (fdiv (fneg (fmul v v)) (Fin 2))) (Fin (sqrt (2 * PI)))
  | Inf _ => Fin 0
  | NaN => NaN
  end.

(** A finite double [v] holds the real number [x]; the two zeros hold 0. *)
Definition holds (v : float64) (x : R) : Prop :=
  v = Fin x \/ (v = NegZero /\ x = 0).

(** ** datetime and pandas functions used by the engine *)

(** A naive [datetime] is a point of the calendar with microsecond
    resolution; it is embedded as its number of microseconds since a fixed
    origin.  The difference of two of them is a [timedelta], normalised so
    that [seconds] and [microseconds] are non-negative: [days] is the floor
    of the difference in days. *)
Definition datetime : Set := Z.

Record timedelta : Set := { days : Z; seconds : Z; microseconds : Z }.

Definition us_per_day : Z := 86400 * 1000000.

Definition datetime_sub (a b : datetime) : timedelta :=
  let us := (a - b)%Z in
  {| days := us / us_per_day;
     seconds := (us mod us_per_day) / 1000000;
     microseconds := (us mod us_per_day) mod 1000000 |}.

(** A pandas float Series is a list of doubles.  [Series.pct_change()] is
    [data / data.shift(1) - 1]: the first entry has no predecessor and is
    NaN, and a zero previous price gives NaN (0 / 0) or an infinity.  The
    prices themselves are finite. *)
Fixpoint pct_change_from (prev : R) (p : list R) : list float64 :=
  match p with
  | [] => []
  | x :: p' => fsub (fdiv (Fin x) (Fin prev)) (Fin 1) :: pct_change_from x p'
  end.

Definition pct_change (p : list R) : list float64 :=
  match p with
  | [] => []
  | x :: p' => NaN :: pct_change_from x p'
  end.

(** [Series.dropna()]: NaN is missing, an infinity is not. *)
Fixpoint dropna (s : list float64) : list float64 :=
  match s with
  | [] => []
  | NaN :: s' => dropna s'
  | v :: s' => v :: dropna s'
  end.

Definition sum_R (l : list R) : R := fold_right Rplus 0 l.

Definition mean (l : list R) : R := sum_R l / INR (length l).

(** Sample variance (one degree of freedom removed). *)
Definition sample_var (l : list R) : R :=
  sum_R (map (fun x => (x - mean l) ^ 2) l) / (INR (length l) - 1).

(** The entries of the window of width [w] that ends at index [i]. *)
Definition window_at {A : Type} (xs : list A) (w i : nat) : list A :=
  let lo := (i + 1 - w)%nat in
  firstn (i + 1 - lo) (skipn lo xs).

(** The rolling routines read an infinity as a missing value. *)
Definition prep_values (xs : list float64) : list (option R) :=
  map (fun v =>
         match v with
         | Fin x => Some x
         | NegZero => Some 0
         | Inf _ => None
         | NaN => None
         end) xs.

Fixpoint observations (win : list (option R)) : list R :=
  match win with
  | [] => []
  | Some x :: win' => x :: observations win'
  | None :: win' => observations win'
  end.

(** [Series.rolling(window=w).std()], [None] standing for NaN.  A negative
    window is refused when the window is built.  An empty Series is returned
    as it is.  The window bounds are 64-bit integers: a window of 2^63 or
    more does not fit (a Series holds fewer than 2^63 entries).  An entry is
    a number once the window holds [w] observations, and more than one. *)
Definition rolling_std (w : Z) (xs : list float64) : result (list (option R)) :=
  if (w <? 0)%Z then Raise ValueError
  else
    match xs with
    | [] => Ok []
    | _ :: _ =>
        if (2 ^ 63 <=? w)%Z && (Z.of_nat (length xs) <? 2 ^ 63)%Z
        then Raise OverflowError
        else
          let values := prep_values xs in
          Ok (map (fun i =>
                     let obs := observations (window_at values (Z.to_nat w) i) in
                     let nobs := length obs in
                     if (Z.to_nat w <=? nobs)%nat && (1 <? nobs)%nat
                     then Some (sqrt (sample_var obs))
                     else None)
                  (seq 0 (length xs)))
    end.

(** ** The engine *)

Module BlackScholesModel.

(** The clock read by [datetime.now()] is the argument [now]. *)
Definition calculate_time_to_expiry (now expiration_date : datetime) : R :=
  let current_date := now in
  let days_to_expiry := days (datetime_sub expiration_date current_date) in
  let T := Rmax (IZR days_to_expiry / 365) 0.0001 in
  T.

Definition calculate_d1_d2 (S K r sigma T : R) : R * R :=
  let d1 := (ln (S / K) + (r + 0.5 * sigma ^ 2) * T) / (sigma * sqrt T) in
  let d2 := d1 - sigma * sqrt T in
  (d1, d2).

Definition calculate_option_price (S K r sigma T : R) (option_type : string)
  : R :=
  let '(d1, d2) := calculate_d1_d2 S K r sigma T in
  if String.eqb (lower option_type) "call" then
    S * norm_cdf d1 - K * exp (- r * T) * norm_cdf d2
  else
    K * exp (- r * T) * norm_cdf (- d2) - S * norm_cdf (- d1).

Definition calculate_greeks (S K r sigma T : R) (option_type : string)
  : dict R :=
  let '(d1, d2) := calculate_d1_d2 S K r sigma T in
  let sqrt_T := sqrt T in
  let exp_neg_rT := exp (- r * T) in
  let n_prime_d1 := norm_pdf d1 in
  let greeks : dict R := [] in
  if String.eqb (lower option_type) "call" then
    let greeks := dict_set greeks "delta" (norm_cdf d1) in
    let greeks := dict_set greeks "gamma" (n_prime_d1 / (S * sigma * sqrt_T)) in
    let greeks := dict_set greeks "vega" (S * n_prime_d1 * sqrt_T / 100) in
    let greeks := dict_set greeks "theta"
      ((- S * n_prime_d1 * sigma / (2 * sqrt_T)
        - r * K * exp_neg_rT * norm_cdf d2) / 365) in
    let greeks := dict_set greeks "rho"
      (K * T * exp_neg_rT * norm_cdf d2 / 100) in
    greeks
  else
    let greeks := dict_set greeks "delta" (norm_cdf d1 - 1) in
    let greeks := dict_set greeks "gamma" (n_prime_d1 / (S * sigma * sqrt_T)) in
    let greeks := dict_set greeks "vega" (S * n_prime_d1 * sqrt_T / 100) in
    let greeks := dict_set greeks "theta"
      ((- S * n_prime_d1 * sigma / (2 * sqrt_T)
        + r * K * exp_neg_rT * norm_cdf (- d2)) / 365) in
    let greeks := dict_set greeks "rho"
      (- K * T * exp_neg_rT * norm_cdf (- d2) / 100) in
    greeks.

(** The result is a float or NaN ([None]). *)
Definition calculate_historical_volatility (price_data : list R) (window : Z)
  : result (option R) :=
  let returns := dropna (pct_change price_data) in
  daily_vol <- rolling_std window returns ;;
  let annualized_vol := map (option_map (fun v => v * sqrt 252)) daily_vol in
  Ok (if (0 <? length annualized_vol)%nat
      then last annualized_vol None
      else Some 0.2).

(** [greeks_dict[greek].append(value)] for every item of [greeks]. *)
Fixpoint append_items (greeks_dict : dict (list R)) (items : dict R)
  : result (dict (list R)) :=
  match items with
  | [] => Ok greeks_dict
  | (greek, value) :: items' =>
      series <- dict_get greeks_dict greek ;;
      append_items (dict_set greeks_dict greek (series ++ [value])) items'
  end.

(** One iteration of the loop over [x_values]. *)
Definition sweep_step (base_params : dict R) (vary_param option_type : string)
  (acc : list R * dict (list R)) (x : R) : result (list R * dict (list R)) :=
  let '(prices, greeks_dict) := acc in
  let params := dict_set base_params vary_param x in
  pS <- dict_get params "S" ;;
  pK <- dict_get params "K" ;;
  pr <- dict_get params "r" ;;
  psigma <- dict_get params "sigma" ;;
  pT <- dict_get params "T" ;;
  let price := calculate_option_price pS pK pr psigma pT option_type in
  gS <- dict_get params "S" ;;
  gK <- dict_get params "K" ;;
  gr <- dict_get params "r" ;;
  gsigma <- dict_get params "sigma" ;;
  gT <- dict_get params "T" ;;
  let greeks := calculate_greeks gS gK gr gsigma gT option_type in
  let prices := prices ++ [price] in
  greeks_dict <- append_items greeks_dict greeks ;;
  Ok (prices, greeks_dict).

Fixpoint sweep_loop (base_params : dict R) (vary_param option_type : string)
  (acc : list R * dict (list R)) (x_values : list R)
  : result (list R * dict (list R)) :=
  match x_values with
  | [] => Ok acc
  | x :: rest =>
      acc' <- sweep_step base_params vary_param option_type acc x ;;
      sweep_loop base_params vary_param option_type acc' rest
  end.

(** The locals [x_values] and [vary_param] are bound only by the four
    branches on [param]; the loop header reads [x_values]. *)
Definition generate_sensitivity_data (S K r sigma T : R)
  (option_type param : string) (range_pct : R) (points : Z)
  : result (list R * list R * dict (list R)) :=
  let base_params : dict R :=
    [("S", S); ("K", K); ("r", r); ("sigma", sigma); ("T", T)] in
  locals <-
    (if String.eqb param "spot" then
       x_values <- linspace (S * (1 - range_pct)) (S * (1 + range_pct)) points ;;
       Ok (Some (x_values, "S"))
     else if String.eqb param "strike" then
       x_values <- linspace (K * (1 - range_pct)) (K * (1 + range_pct)) points ;;
       Ok (Some (x_values, "K"))
     else if String.eqb param "volatility" then
       x_values <- linspace (sigma * 0.5) (sigma * 1.5) points ;;
       Ok (Some (x_values, "sigma"))
     else if String.eqb param "time" then
       x_values <- linspace 0.01 T points ;;
       Ok (Some (x_values, "T"))
     else Ok None) ;;
  let prices : list R := [] in
  let greeks_dict : dict (list R) :=
    fold_left (fun d greek => dict_set d greek [])
              ["delta"; "gamma"; "vega"; "theta"; "rho"] [] in
  match locals with
  | None => Raise (UnboundLocalError "x_values")
  | Some (x_values, vary_param) =>
      acc <- sweep_loop base_params vary_param option_type
                        (prices, greeks_dict) x_values ;;
      let '(prices, greeks_dict) := acc in
      Ok (x_values, prices, greeks_dict)
  end.

End BlackScholesModel.

(** ** The engine over IEEE values

    The same three functions, with every operation read as the double
    precision one.  An argument is a Python float or a NumPy float.  The
    library functions return NumPy floats, and an operation with a NumPy
    operand follows IEEE 754 without raising; the one quotient of two
    arguments is [S / K]. *)

Module Ieee.

Inductive number : Type :=
| PyFloat (v : float64)
| NpFloat (v : float64).

Definition val (n : number) : float64 :=
  match n with
  | PyFloat v => v
  | NpFloat v => v
  end.

(** [a / b]: the quotient of two Python floats raises on a zero divisor. *)
Definition truediv (a b : number) : result float64 :=
  match a, b with
  | PyFloat x, PyFloat y =>
      if is_zero y then Raise ZeroDivisionError else Ok (fdiv x y)
  | _, _ => Ok (fdiv (val a) (val b))
  end.

Definition calculate_d1_d2 (S K r sigma T : number)
  : result (float64 * float64) :=
  q <- truediv S K ;;
  let r := val r in
  let sigma := val sigma in
  let T := val T in
  let d1 :=
    fdiv (fadd (flog q)
               (fmul (fadd r (fmul (Fin 0.5) (fmul sigma sigma))) T))
         (fmul sigma (fsqrt T)) in
  let d2 := fsub d1 (fmul sigma (fsqrt T)) in
  Ok (d1, d2).

Definition calculate_option_price (S K r sigma T : number)
  (option_type : string) : result float64 :=
  d <- calculate_d1_d2 S K r sigma T ;;
  let '(d1, d2) := d in
  let S := val S in
  let K := val K in
  let r := val r in
  let T := val T in
  if String.eqb (lower option_type) "call" then
    Ok (fsub (fmul S (fcdf d1))
             (fmul (fmul K (fexp (fmul (fneg r) T))) (fcdf d2)))
  else
    Ok (fsub (fmul (fmul K (fexp (fmul (fneg r) T))) (fcdf (fneg d2)))
             (fmul S (fcdf (fneg d1)))).

Definition calculate_greeks (S K r sigma T : number) (option_type : string)
  : result (dict float64) :=
  d <- calculate_d1_d2 S K r sigma T ;;
  let '(d1, d2) := d in
  let S := val S in
  let K := val K in
  let r := val r in
  let sigma := val sigma in
  let T := val T in
  let sqrt_T := fsqrt T in
  let exp_neg_rT := fexp (fmul (fneg r) T) in
  let n_prime_d1 := fpdf d1 in
  let greeks : dict float64 := [] in
  if String.eqb (lower option_type) "call" then
    let greeks := dict_set greeks "delta" (fcdf d1) in
    let greeks := dict_set greeks "gamma"
      (fdiv n_prime_d1 (fmul (fmul S sigma) sqrt_T)) in
    let greeks := dict_set greeks "vega"
      (fdiv (fmul (fmul S n_prime_d1) sqrt_T) (Fin 100)) in
    let greeks := dict_set greeks "theta"
      (fdiv (fsub (fdiv (fmul (fmul (fneg S) n_prime_d1) sigma)
                        (fmul (Fin 2) sqrt_T))
                  (fmul (fmul (fmul r K) exp_neg_rT) (fcdf d2)))
            (Fin 365)) in
    let greeks := dict_set greeks "rho"
      (fdiv (fmul (fmul (fmul K T) exp_neg_rT) (fcdf d2)) (Fin 100)) in
    Ok greeks
  else
    let greeks := dict_set greeks "delta" (fsub (fcdf d1) (Fin 1)) in
    let greeks := dict_set greeks "gamma"
      (fdiv n_prime_d1 (fmul (fmul S sigma) sqrt_T)) in
    let greeks := dict_set greeks "vega"
      (fdiv (fmul (fmul S n_prime_d1) sqrt_T) (Fin 100)) in
    let greeks := dict_set greeks "theta"
      (fdiv (fadd (fdiv (fmul (fmul (fneg S) n_prime_d1) sigma)
                        (fmul (Fin 2) sqrt_T))
                  (fmul (fmul (fmul r K) exp_neg_rT) (fcdf (fneg d2))))
            (Fin 365)) in
    let greeks := dict_set greeks "rho"
      (fdiv (fmul (fmul (fmul (fneg K) T) exp_neg_rT) (fcdf (fneg d2)))
            (Fin 100)) in
    Ok greeks.

End Ieee.


Import BlackScholesModel.

(** ** Terms in which the properties are stated *)

(** The intermediate terms of section 4.2, written out. *)
Definition d1_term (S K r sigma T : R) : R :=
  (ln (S / K) + (r + 0.5 * sigma ^ 2) * T) / (sigma * sqrt T).

Definition d2_term (S K r sigma T : R) : R :=
  d1_term S K r sigma T - sigma * sqrt T.

(** The [i]-th sample of a sweep of [num] points from [lo] to [hi]. *)
Definition sample (lo hi : R) (num : Z) (i : nat) : R :=
  if (1 <? num)%Z then lo + INR i * ((hi - lo) / IZR (num - 1)) else lo.

(** The accumulator [greeks_dict]: one series per Greek. *)
Definition greeks_series (deltas gammas vegas thetas rhos : list R)
  : dict (list R) :=
  [("delta", deltas); ("gamma", gammas); ("vega", vegas);
   ("theta", thetas); ("rho", rhos)].

(** The base inputs with the swept value [x] in the place the selector
    names, the four others unchanged. *)
Definition substitute (param : string) (x S K r sigma T : R)
  : R * R * R * R * R :=
  if String.eqb param "spot" then (x, K, r, sigma, T)
  else if String.eqb param "strike" then (S, x, r, sigma, T)
  else if String.eqb param "volatility" then (S, K, r, x, T)
  else if String.eqb param "time" then (S, K, r, sigma, x)
  else (S, K, r, sigma, T).

Definition price_of (inputs : R * R * R * R * R) (option_type : string) : R :=
  let '(s, k, r, sigma, t) := inputs in
  calculate_option_price s k r sigma t option_type.

Definition greeks_of (inputs : R * R * R * R * R) (option_type : string)
  : dict R :=
  let '(s, k, r, sigma, t) := inputs in
  calculate_greeks s k r sigma t option_type.

Definition greek_of (name : string) (inputs : R * R * R * R * R)
  (option_type : string) : R :=
  match dict_get (greeks_of inputs option_type) name with
  | Ok v => v
  | Raise _ => 0
  end.

(** The bounds of the swept interval and the key of the varied input, for
    each selector the sweep knows. *)
Definition sweep_plan (param : string) (S K sigma T range_pct : R)
  : option (R * R * string) :=
  if String.eqb param "spot" then
    Some (S * (1 - range_pct), S * (1 + range_pct), "S")
  else if String.eqb param "strike" then
    Some (K * (1 - range_pct), K * (1 + range_pct), "K")
  else if String.eqb param "volatility" then
    Some (sigma * 0.5, sigma * 1.5, "sigma")
  else if String.eqb param "time" then
    Some (0.01, T, "T")
  else None.

(** The polynomials that enclose the integral of exp(-t^2/2) from 0 to
    [x]: the Taylor sums up to the degrees 5 and 7. *)
Definition cdf_poly_hi (x : R) : R := x - x ^ 3 / 6 + x ^ 5 / 40.
Definition cdf_poly_lo (x : R) : R := x - x ^ 3 / 6 + x ^ 5 / 40 - x ^ 7 / 336.


(** The simple returns of consecutive prices, [p_t / p_(t-1) - 1]. *)
Fixpoint returns_from (prev : R) (p : list R) : list R :=
  match p with
  | [] => []
  | x :: p' => (x / prev - 1) :: returns_from x p'
  end.

Definition simple_returns (p : list R) : list R :=
  match p with
  | [] => []
  | x :: p' => returns_from x p'
  end.

(** The last [n] entries of a list. *)
Definition lastn (n : nat) (l : list R) : list R := skipn (length l - n) l.

(** ** The application script ([app.py]): what it computes between widgets *)

Module App.

(** [min(items, key=key)] keeps the first item with the least key. *)
Fixpoint min_from (key : nat -> R) (best : nat) (items : list nat) : nat :=
  match items with
  | [] => best
  | i :: rest =>
      if Rlt_dec (key i) (key best) then min_from key i rest
      else min_from key best rest
  end.

Definition py_min (items : list nat) (key : nat -> R) : result nat :=
  match items with
  | [] => Raise ValueError
  | i :: rest => Ok (min_from key i rest)
  end.

(** The default strike: the index of the strike closest to the current
    price.  The indices come from [range(len(available_strikes))], so every
    lookup is in range. *)
Definition closest_strike_idx (available_strikes : list R) (current_price : R)
  : result nat :=
  py_min (seq 0 (length available_strikes))
         (fun i => Rabs (nth i available_strikes 0 - current_price)).

(** The payoff at expiration over a grid of spot prices. *)
Definition payoff (option_type : string) (strike_price : R)
  (spot_range_payoff : list R) : list R :=
  if String.eqb (lower option_type) "call" then
    map (fun s => Rmax (s - strike_price) 0) spot_range_payoff
  else
    map (fun s => Rmax (strike_price - s) 0) spot_range_payoff.

Definition profit_loss (payoff : list R) (option_price : R) : list R :=
  map (fun p => p - option_price) payoff.

Definition breakeven (option_type : string) (strike_price option_price : R)
  : R :=
  if String.eqb (lower option_type) "call" then strike_price + option_price
  else strike_price - option_price.

Definition param_map : dict string :=
  [("Spot Price", "spot"); ("Strike Price", "strike");
   ("Volatility", "volatility"); ("Time to Expiry", "time")].

(** The sensitivity tab: the sweep of the chosen parameter with the default
    range and point count, the marker of the current value, and the series
    of the chosen Greek. *)
Definition sensitivity_tab (spot_price strike_price risk_free_rate volatility
  T : R) (option_type sensitivity_param greek_choice : string)
  : result (list R * list R * R * list R) :=
  param <- dict_get param_map sensitivity_param ;;
  sweep <- generate_sensitivity_data spot_price strike_price risk_free_rate
             volatility T (lower option_type) param 0.2 50 ;;
  let '(x_values, prices, greeks_sens) := sweep in
  key <- dict_get param_map sensitivity_param ;;
  current_x <- dict_get [("spot", spot_price); ("strike", strike_price);
                         ("volatility", volatility); ("time", T)] key ;;
  series <- dict_get greeks_sens (lower greek_choice) ;;
  Ok (x_values, prices, current_x, series).

End App.

(** * Properties of the normal distribution function *)

(** A function that vanishes at 0 and has a non-negative derivative on the
    non-negative half line is non-negative there. *)
Lemma nonneg_of_derivative (f f' : R -> R) :
  f 0 = 0 ->
  (forall t, 0 <= t -> derivable_pt_lim f t (f' t)) ->
  (forall t, 0 <= t -> 0 <= f' t) ->
  forall x, 0 <= x -> 0 <= f x.
Proof.
  intros H0 Hd Hpos x Hx.
  destruct (Req_dec x 0) as [-> | Hne]; [lra |].
  destruct (MVT_cor2 f f' 0 x) as [c [Hc Hin]]; [lra | |].
  - intros t Ht. apply Hd. lra.
  - assert (0 <= f' c) by (apply Hpos; lra). nra.
Qed.

(** A function with a vanishing derivative everywhere is constant. *)
Lemma constant_of_derivative (f : R -> R) :
  (forall t, derivable_pt_lim f t 0) -> forall x, f x = f 0.
Proof.
  intros Hd x.
  destruct (Rtotal_order x 0) as [Hlt | [-> | Hgt]]; [| reflexivity |].
  - destruct (MVT_cor2 f (fun _ => 0) x 0) as [c [Hc _]]; [lra | |].
    + intros t _. apply Hd.
    + lra.
  - destruct (MVT_cor2 f (fun _ => 0) 0 x) as [c [Hc _]]; [lra | |].
    + intros t _. apply Hd.
    + lra.
Qed.

Lemma norm_cdf_0 : norm_cdf 0 = 1 / 2.
Proof. unfold norm_cdf. rewrite RiemannInt_P9. lra. Qed.

(** The distribution function is a primitive of the density. *)
Lemma norm_cdf_derivable (x : R) : derivable_pt_lim norm_cdf x (norm_pdf x).
Proof.
  set (a := Rmin 0 x - 1). set (b := Rmax 0 x + 1).
  assert (Ha0 : a <= 0 - 1) by (unfold a; generalize (Rmin_l 0 x); lra).
  assert (Hax : a <= x - 1) by (unfold a; generalize (Rmin_r 0 x); lra).
  assert (Hb0 : 0 + 1 <= b) by (unfold b; generalize (Rmax_l 0 x); lra).
  assert (Hbx : x + 1 <= b) by (unfold b; generalize (Rmax_r 0 x); lra).
  assert (hab : a <= b) by lra.
  assert (C0 : forall t, a <= t <= b -> continuity_pt norm_pdf t)
    by (intros t _; apply norm_pdf_continuity).
  pose proof (RiemannInt_P28 hab C0 (x := x)) as HP.
  assert (Hin : a <= x <= b) by lra. specialize (HP Hin).
  assert (Heq : forall y, a <= y <= b ->
            norm_cdf y = primitive hab (FTC_P1 hab C0) y
                         + (1 / 2 - RiemannInt (norm_pdf_integrable a 0))).
  { intros y [Hy1 Hy2]. unfold norm_cdf, primitive.
    destruct (Rle_dec a y) as [r1 | n1]; [| lra].
    destruct (Rle_dec y b) as [r2 | n2]; [| lra].
    rewrite <- (RiemannInt_P26 (norm_pdf_integrable a 0)
                  (norm_pdf_integrable 0 y) (FTC_P1 hab C0 r1 r2)).
    lra. }
  intros eps Heps. destruct (HP eps Heps) as [d Hd].
  assert (Hmin : 0 < Rmin d 1) by (apply Rmin_pos; [apply d | lra]).
  exists (mkposreal _ Hmin). intros h Hh Hlt. simpl in Hlt.
  assert (Hh1 : Rabs h < 1) by (eapply Rlt_le_trans; [exact Hlt | apply Rmin_r]).
  assert (Hhd : Rabs h < d) by (eapply Rlt_le_trans; [exact Hlt | apply Rmin_l]).
  apply Rabs_def2 in Hh1.
  rewrite (Heq (x + h)), (Heq x); [| lra | lra].
  replace (primitive hab (FTC_P1 hab C0) (x + h) +
           (1 / 2 - RiemannInt (norm_pdf_integrable a 0)) -
           (primitive hab (FTC_P1 hab C0) x +
            (1 / 2 - RiemannInt (norm_pdf_integrable a 0))))
    with (primitive hab (FTC_P1 hab C0) (x + h) - primitive hab (FTC_P1 hab C0) x)
    by lra.
  apply Hd; assumption.
Qed.

Lemma norm_pdf_even (x : R) : norm_pdf (- x) = norm_pdf x.
Proof. unfold norm_pdf. do 2 f_equal. lra. Qed.

Lemma norm_pdf_pos (x : R) : 0 < norm_pdf x.
Proof.
  unfold norm_pdf. apply Rdiv_lt_0_compat; [apply exp_pos |].
  apply sqrt_lt_R0. generalize PI_RGT_0. lra.
Qed.

(** Symmetry of the distribution function. *)
Lemma norm_cdf_opp (x : R) : norm_cdf (- x) = 1 - norm_cdf x.
Proof.
  pose (f := fun t => norm_cdf t + norm_cdf (- t)).
  assert (Hd : forall t, derivable_pt_lim f t 0).
  { intro t. unfold f.
    replace 0 with (norm_pdf t + norm_pdf (- t) * (- 1))
      by (rewrite norm_pdf_even; lra).
    apply (derivable_pt_lim_plus norm_cdf (fun t => norm_cdf (- t))).
    - apply norm_cdf_derivable.
    - apply (derivable_pt_lim_comp (fun t => - t) norm_cdf).
      + apply (derivable_pt_lim_opp id t 1), derivable_pt_lim_id.
      + apply norm_cdf_derivable. }
  pose proof (constant_of_derivative f Hd x) as H.
  unfold f in H. rewrite Ropp_0, norm_cdf_0 in H. lra.
Qed.

(** ** Taylor enclosures of the exponential at a non-positive argument *)

Ltac dlim_reg :=
  match goal with
  | |- derivable_pt_lim ?f ?x _ =>
      let pr := fresh "pr" in
      assert (pr : derivable_pt f x) by reg;
      apply (derive_pt_eq_1 f x _ pr); reg; try lra
  end.

Lemma dlim_ext (f g : R -> R) (x l : R) :
  (forall y, g y = f y) -> derivable_pt_lim g x l -> derivable_pt_lim f x l.
Proof.
  intros E D eps He. destruct (D eps He) as [d Hd]. exists d. intros h Hh Hlt.
  rewrite <- !E. apply Hd; assumption.
Qed.

Lemma exp_neg_ge_1 (u : R) : 1 - u <= exp (- u).
Proof. generalize (exp_ineq1_le (- u)). lra. Qed.

Lemma exp_neg_le_2 (u : R) : 0 <= u -> exp (- u) <= 1 - u + u * u / 2.
Proof.
  intro Hu.
  pose proof (nonneg_of_derivative
                (fun u => 1 - u + u * u / 2 - exp (- u))
                (fun u => exp (- u) - (1 - u))) as H.
  cbv beta in H. rewrite Ropp_0, exp_0 in H.
  assert (0 <= 1 - u + u * u / 2 - exp (- u)); [| lra].
  apply H; [lra | | | exact Hu].
  - intros t _. dlim_reg.
  - intros t _. generalize (exp_neg_ge_1 t). lra.
Qed.

Lemma exp_neg_ge_3 (u : R) :
  0 <= u -> 1 - u + u * u / 2 - u * u * u / 6 <= exp (- u).
Proof.
  intro Hu.
  pose proof (nonneg_of_derivative
                (fun u => exp (- u) - (1 - u + u * u / 2 - u * u * u / 6))
                (fun u => 1 - u + u * u / 2 - exp (- u))) as H.
  cbv beta in H. rewrite Ropp_0, exp_0 in H.
  assert (0 <= exp (- u) - (1 - u + u * u / 2 - u * u * u / 6)); [| lra].
  apply H; [lra | | | exact Hu].
  - intros t _. dlim_reg.
  - intros t Ht. generalize (exp_neg_le_2 t Ht). lra.
Qed.

Lemma exp_neg_le_4 (u : R) :
  0 <= u ->
  exp (- u) <= 1 - u + u * u / 2 - u * u * u / 6 + u * u * u * u / 24.
Proof.
  intro Hu.
  pose proof (nonneg_of_derivative
                (fun u => 1 - u + u * u / 2 - u * u * u / 6
                          + u * u * u * u / 24 - exp (- u))
                (fun u => exp (- u) - (1 - u + u * u / 2 - u * u * u / 6))) as H.
  cbv beta in H. rewrite Ropp_0, exp_0 in H.
  assert (0 <= 1 - u + u * u / 2 - u * u * u / 6
               + u * u * u * u / 24 - exp (- u)); [| lra].
  apply H; [lra | | | exact Hu].
  - intros t _. dlim_reg.
  - intros t Ht. generalize (exp_neg_ge_3 t Ht). lra.
Qed.

(** ** Enclosure of the distribution function on the non-negative half line *)

Lemma sqrt_2PI_pos : 0 < sqrt (2 * PI).
Proof. apply sqrt_lt_R0. generalize PI_RGT_0. lra. Qed.

Lemma norm_cdf_le_poly (x : R) :
  0 <= x -> norm_cdf x <= 1 / 2 + cdf_poly_hi x / sqrt (2 * PI).
Proof.
  intro Hx. pose proof sqrt_2PI_pos as Hc.
  pose proof (nonneg_of_derivative
                (fun x => 1 / 2 + cdf_poly_hi x / sqrt (2 * PI) - norm_cdf x)
                (fun x => (1 - x ^ 2 / 2 + x ^ 4 / 8) / sqrt (2 * PI)
                          - norm_pdf x)) as H.
  cbv beta in H.
  assert (0 <= 1 / 2 + cdf_poly_hi x / sqrt (2 * PI) - norm_cdf x); [| lra].
  apply H; [| | | exact Hx].
  - rewrite norm_cdf_0. unfold cdf_poly_hi. simpl. field_simplify; lra.
  - intros t _.
    apply (derivable_pt_lim_minus
             (fun x => 1 / 2 + cdf_poly_hi x / sqrt (2 * PI)) norm_cdf).
    + apply dlim_ext with
        (fun x => 1 / 2 + / sqrt (2 * PI)
                          * (x - x * x * x / 6 + x * x * x * x * x / 40)).
      * intro y. unfold cdf_poly_hi. simpl. field. lra.
      * replace ((1 - t ^ 2 / 2 + t ^ 4 / 8) / sqrt (2 * PI))
          with (/ sqrt (2 * PI) * (1 - t * t / 2 + t * t * t * t / 8))
          by (simpl; field; lra).
        generalize (/ sqrt (2 * PI)). intro k. dlim_reg.
    + apply norm_cdf_derivable.
  - intros t _. unfold norm_pdf.
    assert (Hu : 0 <= t * t / 2) by nra.
    pose proof (exp_neg_le_2 _ Hu) as He.
    replace (- (t * t) / 2) with (- (t * t / 2)) by lra.
    assert (0 <= (1 - t ^ 2 / 2 + t ^ 4 / 8 - exp (- (t * t / 2)))
                 / sqrt (2 * PI)).
    { apply Rmult_le_pos; [| left; apply Rinv_0_lt_compat; exact Hc].
      simpl. lra. }
    unfold Rdiv in *. lra.
Qed.

Lemma norm_cdf_ge_poly (x : R) :
  0 <= x -> 1 / 2 + cdf_poly_lo x / sqrt (2 * PI) <= norm_cdf x.
Proof.
  intro Hx. pose proof sqrt_2PI_pos as Hc.
  pose proof (nonneg_of_derivative
                (fun x => norm_cdf x - (1 / 2 + cdf_poly_lo x / sqrt (2 * PI)))
                (fun x => norm_pdf x
                          - (1 - x ^ 2 / 2 + x ^ 4 / 8 - x ^ 6 / 48)
                            / sqrt (2 * PI))) as H.
  cbv beta in H.
  assert (0 <= norm_cdf x - (1 / 2 + cdf_poly_lo x / sqrt (2 * PI))); [| lra].
  apply H; [| | | exact Hx].
  - rewrite norm_cdf_0. unfold cdf_poly_lo. simpl. field_simplify; lra.
  - intros t _.
    apply (derivable_pt_lim_minus norm_cdf
             (fun x => 1 / 2 + cdf_poly_lo x / sqrt (2 * PI))).
    + apply norm_cdf_derivable.
    + apply dlim_ext with
        (fun x => 1 / 2 + / sqrt (2 * PI)
                          * (x - x * x * x / 6 + x * x * x * x * x / 40
                             - x * x * x * x * x * x * x / 336)).
      * intro y. unfold cdf_poly_lo. simpl. field. lra.
      * replace ((1 - t ^ 2 / 2 + t ^ 4 / 8 - t ^ 6 / 48) / sqrt (2 * PI))
          with (/ sqrt (2 * PI)
                * (1 - t * t / 2 + t * t * t * t / 8
                   - t * t * t * t * t * t / 48))
          by (simpl; field; lra).
        generalize (/ sqrt (2 * PI)). intro k. dlim_reg.
  - intros t _. unfold norm_pdf.
    assert (Hu : 0 <= t * t / 2) by nra.
    pose proof (exp_neg_ge_3 _ Hu) as He.
    replace (- (t * t) / 2) with (- (t * t / 2)) by lra.
    assert (0 <= (exp (- (t * t / 2))
                  - (1 - t ^ 2 / 2 + t ^ 4 / 8 - t ^ 6 / 48))
                 / sqrt (2 * PI)).
    { apply Rmult_le_pos; [| left; apply Rinv_0_lt_compat; exact Hc].
      simpl. lra. }
    unfold Rdiv in *. lra.
Qed.

(** ** Numeric enclosures *)

Lemma PI_enclosure : 3.14158 < PI < 3.14161.
Proof.
  pose proof (PI_2_3_7_ineq 2) as [Hlo Hhi].
  unfold sum_f_R0, tg_alt, PI_2_3_7_tg, Ratan_seq in Hlo, Hhi.
  simpl in Hlo, Hhi.
  split; lra.
Qed.

Lemma sqrt_2PI_enclosure : 2.50662 < sqrt (2 * PI) < 2.50664.
Proof.
  pose proof PI_enclosure as [Hlo Hhi].
  split.
  - rewrite <- (sqrt_square 2.50662) by lra. apply sqrt_lt_1; lra.
  - rewrite <- (sqrt_square 2.50664) by lra. apply sqrt_lt_1; lra.
Qed.

Lemma div_enclosure (p c lo hi : R) :
  0 < lo -> lo < c < hi -> 0 <= p -> p / hi <= p / c <= p / lo.
Proof.
  intros Hlo [H1 H2] Hp. unfold Rdiv. split.
  - apply Rmult_le_compat_l; [exact Hp |].
    apply Rinv_le_contravar; lra.
  - apply Rmult_le_compat_l; [exact Hp |].
    apply Rinv_le_contravar; lra.
Qed.

Lemma norm_cdf_035 : 0.63683 < norm_cdf 0.35 < 0.636832.
Proof.
  assert (Hx : 0 <= 0.35) by lra.
  pose proof (norm_cdf_ge_poly _ Hx) as Hlo.
  pose proof (norm_cdf_le_poly _ Hx) as Hhi.
  pose proof sqrt_2PI_enclosure as Hc.
  assert (Hp1 : 0 <= cdf_poly_lo 0.35) by (unfold cdf_poly_lo; simpl; lra).
  assert (Hp2 : 0 <= cdf_poly_hi 0.35) by (unfold cdf_poly_hi; simpl; lra).
  pose proof (div_enclosure _ _ 2.50662 2.50664 ltac:(lra) Hc Hp1) as [E1 _].
  pose proof (div_enclosure _ _ 2.50662 2.50664 ltac:(lra) Hc Hp2) as [_ E2].
  unfold cdf_poly_lo, cdf_poly_hi in *. simpl in *. split; lra.
Qed.

Lemma norm_cdf_015 : 0.559617 < norm_cdf 0.15 < 0.559618.
Proof.
  assert (Hx : 0 <= 0.15) by lra.
  pose proof (norm_cdf_ge_poly _ Hx) as Hlo.
  pose proof (norm_cdf_le_poly _ Hx) as Hhi.
  pose proof sqrt_2PI_enclosure as Hc.
  assert (Hp1 : 0 <= cdf_poly_lo 0.15) by (unfold cdf_poly_lo; simpl; lra).
  assert (Hp2 : 0 <= cdf_poly_hi 0.15) by (unfold cdf_poly_hi; simpl; lra).
  pose proof (div_enclosure _ _ 2.50662 2.50664 ltac:(lra) Hc Hp1) as [E1 _].
  pose proof (div_enclosure _ _ 2.50662 2.50664 ltac:(lra) Hc Hp2) as [_ E2].
  unfold cdf_poly_lo, cdf_poly_hi in *. simpl in *. split; lra.
Qed.

Lemma exp_neg_005 : 0.951229 < exp (Ropp 0.05) < 0.95123.
Proof.
  assert (Hu : 0 <= 0.05) by lra.
  pose proof (exp_neg_ge_3 _ Hu). pose proof (exp_neg_le_4 _ Hu).
  split; lra.
Qed.

Lemma d1_d2_example : calculate_d1_d2 100 100 0.05 0.2 1 = (0.35, 0.15).
Proof.
  unfold calculate_d1_d2.
  replace (100 / 100) with 1 by lra. rewrite ln_1, sqrt_1.
  f_equal; simpl; lra.
Qed.

Lemma call_price_example :
  Rabs (calculate_option_price 100 100 0.05 0.2 1 "call" - 10.4506) < 0.001.
Proof.
  unfold calculate_option_price. rewrite d1_d2_example. simpl.
  replace (Ropp 0.05 * 1) with (Ropp 0.05) by lra.
  pose proof norm_cdf_035 as [A1 A2]. pose proof norm_cdf_015 as [B1 B2].
  pose proof exp_neg_005 as [E1 E2].
  assert (P1 : 0.951229 * 0.559617 <= exp (Ropp 0.05) * norm_cdf 0.15)
    by (apply Rmult_le_compat; lra).
  assert (P2 : exp (Ropp 0.05) * norm_cdf 0.15 <= 0.95123 * 0.559618)
    by (apply Rmult_le_compat; lra).
  apply Rabs_def1; lra.
Qed.

(** * Properties of the double-precision operations *)


Lemma holds_Fin (x : R) : holds (Fin x) x.
Proof. left. reflexivity. Qed.

Lemma is_zero_Fin (x : R) : is_zero (Fin x) = true <-> x = 0.
Proof.
  unfold is_zero. destruct (Req_dec_T x 0); split; intros; congruence.
Qed.

Lemma is_zero_holds (v : float64) (x : R) :
  holds v x -> (is_zero v = true <-> x = 0).
Proof.
  intros [-> | [-> ->]]; [apply is_zero_Fin |].
  split; reflexivity.
Qed.

Lemma holds_signed_zero (negative : bool) : holds (signed_zero negative) 0.
Proof. destruct negative; [right | left]; auto. Qed.

Lemma holds_fneg (v : float64) (x : R) : holds v x -> holds (fneg v) (- x).
Proof.
  intros [-> | [-> ->]]; unfold fneg.
  - destruct (Req_dec_T x 0) as [-> | _]; [right | left]; auto using Ropp_0.
  - left. rewrite Ropp_0. reflexivity.
Qed.

Lemma holds_fadd (a b : float64) (x y : R) :
  holds a x -> holds b y -> holds (fadd a b) (x + y).
Proof.
  intros [-> | [-> ->]] [-> | [-> ->]]; cbn.
  - left. reflexivity.
  - left. f_equal. ring.
  - left. f_equal. ring.
  - right. split; [reflexivity | ring].
Qed.

Lemma holds_fsub (a b : float64) (x y : R) :
  holds a x -> holds b y -> holds (fsub a b) (x - y).
Proof.
  intros Ha Hb. apply holds_fadd; [exact Ha | apply holds_fneg, Hb].
Qed.

Lemma holds_fmul (a b : float64) (x y : R) :
  holds a x -> holds b y -> holds (fmul a b) (x * y).
Proof.
  intros [-> | [-> ->]] [-> | [-> ->]]; cbn -[is_zero signbit].
  - destruct (is_zero (Fin x) || is_zero (Fin y)) eqn:E.
    + replace (x * y) with 0; [apply holds_signed_zero |].
      apply orb_true_iff in E.
      destruct E as [E | E]; apply is_zero_Fin in E; subst; ring.
    + left. reflexivity.
  - rewrite Rmult_0_r. apply holds_signed_zero.
  - rewrite Rmult_0_l. apply holds_signed_zero.
  - rewrite Rmult_0_l. apply holds_signed_zero.
Qed.

Lemma holds_fdiv (a b : float64) (x y : R) :
  holds a x -> holds b y -> y <> 0 -> holds (fdiv a b) (x / y).
Proof.
  intros Ha [-> | [-> ->]] Hy; [| contradiction].
  assert (Hz : is_zero (Fin y) = false).
  { destruct (is_zero (Fin y)) eqn:E; [| reflexivity].
    apply is_zero_Fin in E. contradiction. }
  destruct Ha as [-> | [-> ->]]; cbn -[is_zero signbit]; rewrite Hz.
  - destruct (is_zero (Fin x)) eqn:E.
    + apply is_zero_Fin in E. subst. unfold Rdiv. rewrite Rmult_0_l.
      apply holds_signed_zero.
    + left. reflexivity.
  - unfold Rdiv. rewrite Rmult_0_l. apply holds_signed_zero.
Qed.

Lemma holds_flog (v : float64) (x : R) :
  holds v x -> 0 < x -> flog v = Fin (ln x).
Proof.
  intros [-> | [-> ->]] Hx; [| lra]. unfold flog.
  destruct (Req_dec_T x 0); [lra |].
  destruct (Rlt_dec x 0); [lra | reflexivity].
Qed.

Lemma holds_fsqrt (v : float64) (x : R) :
  holds v x -> 0 <= x -> holds (fsqrt v) (sqrt x).
Proof.
  intros [-> | [-> ->]] Hx; unfold fsqrt.
  - destruct (Rlt_dec x 0); [lra | left; reflexivity].
  - right. split; [reflexivity | apply sqrt_0].
Qed.

Lemma holds_fexp (v : float64) (x : R) :
  holds v x -> exp_underflow <= x -> fexp v = Fin (exp x).
Proof.
  intros [-> | [-> ->]] Hx; unfold fexp.
  - destruct (Rlt_dec x exp_underflow); [lra | reflexivity].
  - rewrite exp_0. reflexivity.
Qed.

Lemma holds_fexp_underflow (v : float64) (x : R) :
  holds v x -> x < exp_underflow -> fexp v = Fin 0.
Proof.
  unfold exp_underflow. intros [-> | [-> ->]] Hx; [| lra]. unfold fexp.
  destruct (Rlt_dec x exp_underflow) as [_ | H]; [reflexivity |].
  unfold exp_underflow in H. lra.
Qed.

Lemma holds_fcdf (v : float64) (x : R) :
  holds v x -> fcdf v = Fin (norm_cdf x).
Proof. intros [-> | [-> ->]]; reflexivity. Qed.

(** The density of a finite double: the exact one, or zero where the
    exponential underflows. *)
Lemma holds_fpdf (v : float64) (x : R) :
  holds v x -> exp_underflow <= - (x * x) / 2 -> fpdf v = Fin (norm_pdf x).
Proof.
  intros Hv Hx.
  assert (E : fpdf v
              = fdiv (fexp (fdiv (fneg (fmul v v)) (Fin 2)))
                     (Fin (sqrt (2 * PI))))
    by (destruct Hv as [-> | [-> _]]; reflexivity).
  rewrite E.
  assert (Ha : holds (fdiv (fneg (fmul v v)) (Fin 2)) (- (x * x) / 2)).
  { apply holds_fdiv; [| apply holds_Fin | lra].
    apply holds_fneg, holds_fmul; exact Hv. }
  rewrite (holds_fexp _ _ Ha Hx).
  pose proof (exp_pos (- (x * x) / 2)) as He.
  pose proof sqrt_2PI_pos as Hc.
  destruct (holds_fdiv (Fin (exp (- (x * x) / 2))) (Fin (sqrt (2 * PI)))
              _ _ (holds_Fin _) (holds_Fin _)) as [H | [_ H]];
    [lra | exact H |].
  exfalso. unfold Rdiv in H.
  apply Rmult_integral in H. destruct H as [H | H]; [lra |].
  pose proof (Rinv_0_lt_compat _ Hc). lra.
Qed.

Lemma holds_fpdf_underflow (v : float64) (x : R) :
  holds v x -> - (x * x) / 2 < exp_underflow -> fpdf v = Fin 0.
Proof.
  intros Hv Hx.
  assert (E : fpdf v
              = fdiv (fexp (fdiv (fneg (fmul v v)) (Fin 2)))
                     (Fin (sqrt (2 * PI))))
    by (destruct Hv as [-> | [-> _]]; reflexivity).
  rewrite E.
  assert (Ha : holds (fdiv (fneg (fmul v v)) (Fin 2)) (- (x * x) / 2)).
  { apply holds_fdiv; [| apply holds_Fin | lra].
    apply holds_fneg, holds_fmul; exact Hv. }
  rewrite (holds_fexp_underflow _ _ Ha Hx).
  pose proof sqrt_2PI_pos as Hc.
  cbn -[is_zero signbit].
  assert (Hz : is_zero (Fin (sqrt (2 * PI))) = false).
  { destruct (is_zero (Fin (sqrt (2 * PI)))) eqn:Ez; [| reflexivity].
    apply is_zero_Fin in Ez. lra. }
  rewrite Hz.
  assert (Hz0 : is_zero (Fin 0) = true) by (apply is_zero_Fin; reflexivity).
  rewrite Hz0. unfold signbit.
  destruct (Rlt_dec 0 0); [lra |].
  destruct (Rlt_dec (sqrt (2 * PI)) 0); [lra | reflexivity].
Qed.

Lemma signbit_nonneg (x : R) : 0 <= x -> signbit (Fin x) = false.
Proof. intro H. unfold signbit. destruct (Rlt_dec x 0); [lra | reflexivity]. Qed.

Lemma fmul_nonneg (x y : R) :
  0 <= x -> 0 <= y -> fmul (Fin x) (Fin y) = Fin (x * y).
Proof.
  intros Hx Hy. cbn -[is_zero signbit].
  destruct (is_zero (Fin x) || is_zero (Fin y)) eqn:E; [| reflexivity].
  rewrite !signbit_nonneg by assumption. cbn. f_equal.
  apply orb_true_iff in E.
  destruct E as [E | E]; apply is_zero_Fin in E; subst; ring.
Qed.

Lemma fdiv_nonneg (x y : R) :
  0 <= x -> 0 < y -> fdiv (Fin x) (Fin y) = Fin (x / y).
Proof.
  intros Hx Hy. cbn -[is_zero signbit].
  assert (Hz : is_zero (Fin y) = false).
  { destruct (is_zero (Fin y)) eqn:E; [| reflexivity].
    apply is_zero_Fin in E. lra. }
  rewrite Hz. destruct (is_zero (Fin x)) eqn:E; [| reflexivity].
  rewrite !signbit_nonneg by lra. cbn. f_equal.
  apply is_zero_Fin in E. subst. unfold Rdiv. ring.
Qed.

Lemma fsqrt_nonneg (x : R) : 0 <= x -> fsqrt (Fin x) = Fin (sqrt x).
Proof. intro H. unfold fsqrt. destruct (Rlt_dec x 0); [lra | reflexivity]. Qed.

(** The density computed for a finite double is a finite double that is
    never negative: the exact density, or zero once the exponential
    underflows. *)
Lemma fpdf_cases (v : float64) (x : R) :
  holds v x ->
  exists p,
    fpdf v = Fin p
    /\ 0 <= p
    /\ (exp_underflow <= - (x * x) / 2 -> p = norm_pdf x)
    /\ (- (x * x) / 2 < exp_underflow -> p = 0).
Proof.
  intro Hv. destruct (Rlt_dec (- (x * x) / 2) exp_underflow) as [U | U].
  - exists 0. split; [apply (holds_fpdf_underflow _ _ Hv U) |].
    split; [lra |]. split; [lra | reflexivity].
  - exists (norm_pdf x). split; [apply (holds_fpdf _ _ Hv); lra |].
    split; [left; apply norm_pdf_pos |]. split; [reflexivity | lra].
Qed.

Lemma fdiv_zero_zero (a b : float64) : holds a 0 -> holds b 0 -> fdiv a b = NaN.
Proof.
  assert (Hz : is_zero (Fin 0) = true) by (apply is_zero_Fin; reflexivity).
  intros [-> | [-> _]] [-> | [-> _]]; cbn -[is_zero signbit];
    rewrite ?Hz; reflexivity.
Qed.

(** The underflow threshold: the exponential of -746 is under half the least
    positive double, 2^-1074, so it rounds to zero. *)
Lemma exp_pow_nat (x : R) (n : nat) : exp x ^ n = exp (INR n * x).
Proof.
  induction n as [| n IH].
  - simpl. rewrite Rmult_0_l, exp_0. reflexivity.
  - rewrite S_INR, <- tech_pow_Rmult, IH, <- exp_plus. f_equal. ring.
Qed.

Lemma pow_lt_strict (a b : R) (n : nat) :
  0 < a -> a < b -> a ^ S n < b ^ S n.
Proof.
  intros Ha Hab. induction n as [| n IH].
  - simpl. lra.
  - rewrite <- (tech_pow_Rmult a (S n)), <- (tech_pow_Rmult b (S n)).
    assert (0 < a ^ S n) by (apply pow_lt; exact Ha).
    generalize dependent (a ^ S n). generalize dependent (b ^ S n).
    intros q p Hpq Hp.
    apply Rlt_trans with (a * q).
    + apply Rmult_lt_compat_l; assumption.
    + apply Rmult_lt_compat_r; lra.
Qed.

Lemma exp_underflow_rounds_to_zero : exp exp_underflow < / 2 ^ 1075.
Proof.
  unfold exp_underflow.
  set (a := exp (- (746 / 1075))).
  assert (Ha : 0 < a) by apply exp_pos.
  assert (Hhalf : a < / 2).
  { assert (H : exp (- (373 / 1075)) <= 0.70687).
    { pose proof (exp_neg_le_4 (373 / 1075)). lra. }
    pose proof (exp_pos (- (373 / 1075))) as Hp.
    unfold a.
    replace (- (746 / 1075)) with (- (373 / 1075) + - (373 / 1075)) by lra.
    rewrite exp_plus. nra. }
  replace (-746) with (INR 1075 * - (746 / 1075)).
  2:{ replace (INR 1075) with 1075 by (rewrite INR_IZR_INZ; reflexivity).
      lra. }
  rewrite <- exp_pow_nat. fold a.
  rewrite <- pow_inv.
  apply (pow_lt_strict a (/ 2) 1074 Ha Hhalf).
Qed.

(** * The pricing functions *)

Lemma calculate_d1_d2_terms (S K r sigma T : R) :
  calculate_d1_d2 S K r sigma T = (d1_term S K r sigma T, d2_term S K r sigma T).
Proof. reflexivity. Qed.

Lemma eqb_call_true (option_type : string) :
  lower option_type = "call" -> String.eqb (lower option_type) "call" = true.
Proof. intros ->. reflexivity. Qed.

Lemma eqb_call_false (option_type : string) :
  lower option_type <> "call" -> String.eqb (lower option_type) "call" = false.
Proof. intro H. apply String.eqb_neq. exact H. Qed.

Lemma price_call_branch (S K r sigma T : R) (option_type : string) :
  lower option_type = "call" ->
  calculate_option_price S K r sigma T option_type
  = S * norm_cdf (d1_term S K r sigma T)
    - K * exp (- (r * T)) * norm_cdf (d2_term S K r sigma T).
Proof.
  intro H. unfold calculate_option_price.
  rewrite calculate_d1_d2_terms, (eqb_call_true _ H).
  replace (- r * T) with (- (r * T)) by ring. reflexivity.
Qed.

Lemma price_put_branch (S K r sigma T : R) (option_type : string) :
  lower option_type <> "call" ->
  calculate_option_price S K r sigma T option_type
  = K * exp (- (r * T)) * norm_cdf (- d2_term S K r sigma T)
    - S * norm_cdf (- d1_term S K r sigma T).
Proof.
  intro H. unfold calculate_option_price.
  rewrite calculate_d1_d2_terms, (eqb_call_false _ H).
  replace (- r * T) with (- (r * T)) by ring. reflexivity.
Qed.

(** C1: for positive S, K, sigma, T the price is
    S Phi(d1) - K exp(-rT) Phi(d2) for a Call and
    K exp(-rT) Phi(-d2) - S Phi(-d1) for a Put, with d1 and d2 the terms of
    section 4.2; at S = K = 100, r = 0.05, sigma = 0.20, T = 1 the Call price
    is within 0.001 of 10.4506. *)
Theorem option_price_black_scholes (S K r sigma T : R) (option_type : string) :
  0 < S -> 0 < K -> 0 < sigma -> 0 < T ->
  calculate_d1_d2 S K r sigma T
  = ((ln (S / K) + (r + 0.5 * sigma ^ 2) * T) / (sigma * sqrt T),
     (ln (S / K) + (r + 0.5 * sigma ^ 2) * T) / (sigma * sqrt T)
     - sigma * sqrt T)
  /\ (lower option_type = "call" ->
      calculate_option_price S K r sigma T option_type
      = S * norm_cdf (d1_term S K r sigma T)
        - K * exp (- (r * T)) * norm_cdf (d2_term S K r sigma T))
  /\ (lower option_type = "put" ->
      calculate_option_price S K r sigma T option_type
      = K * exp (- (r * T)) * norm_cdf (- d2_term S K r sigma T)
        - S * norm_cdf (- d1_term S K r sigma T))
  /\ Rabs (calculate_option_price 100 100 0.05 0.2 1 "call" - 10.4506) < 0.001.
Proof.
  intros _ _ _ _. split; [reflexivity |]. split; [| split].
  - apply price_call_branch.
  - intro H. apply price_put_branch. rewrite H. discriminate.
  - exact call_price_example.
Qed.

Lemma option_price_black_scholes_witness :
  calculate_option_price 100 100 0.05 0.2 1 "Call"
  = 100 * norm_cdf (d1_term 100 100 0.05 0.2 1)
    - 100 * exp (- (0.05 * 1)) * norm_cdf (d2_term 100 100 0.05 0.2 1).
Proof.
  apply (option_price_black_scholes 100 100 0.05 0.2 1 "Call");
    try lra; reflexivity.
Defined.

(** C2: put-call parity.  On positive S, K, sigma, T the Call price minus the
    Put price is S - K exp(-rT). *)
Theorem put_call_parity (S K r sigma T : R) :
  0 < S -> 0 < K -> 0 < sigma -> 0 < T ->
  calculate_option_price S K r sigma T "call"
  - calculate_option_price S K r sigma T "put"
  = S - K * exp (- (r * T)).
Proof.
  intros _ _ _ _.
  rewrite price_call_branch by reflexivity.
  rewrite price_put_branch by discriminate.
  rewrite !norm_cdf_opp. ring.
Qed.

Lemma put_call_parity_witness :
  calculate_option_price 100 100 0.05 0.2 1 "call"
  - calculate_option_price 100 100 0.05 0.2 1 "put"
  = 100 - 100 * exp (- (0.05 * 1)).
Proof. apply put_call_parity; lra. Defined.

(** * The Greeks *)

Lemma greeks_call_branch (S K r sigma T : R) (option_type : string) :
  lower option_type = "call" ->
  let d1 := d1_term S K r sigma T in
  let d2 := d2_term S K r sigma T in
  calculate_greeks S K r sigma T option_type
  = [("delta", norm_cdf d1);
     ("gamma", norm_pdf d1 / (S * sigma * sqrt T));
     ("vega", S * norm_pdf d1 * sqrt T / 100);
     ("theta", (- S * norm_pdf d1 * sigma / (2 * sqrt T)
                - r * K * exp (- (r * T)) * norm_cdf d2) / 365);
     ("rho", K * T * exp (- (r * T)) * norm_cdf d2 / 100)].
Proof.
  intros H d1 d2. unfold calculate_greeks.
  rewrite calculate_d1_d2_terms, (eqb_call_true _ H).
  replace (- r * T) with (- (r * T)) by ring. reflexivity.
Qed.

Lemma greeks_put_branch (S K r sigma T : R) (option_type : string) :
  lower option_type <> "call" ->
  let d1 := d1_term S K r sigma T in
  let d2 := d2_term S K r sigma T in
  calculate_greeks S K r sigma T option_type
  = [("delta", norm_cdf d1 - 1);
     ("gamma", norm_pdf d1 / (S * sigma * sqrt T));
     ("vega", S * norm_pdf d1 * sqrt T / 100);
     ("theta", (- S * norm_pdf d1 * sigma / (2 * sqrt T)
                + r * K * exp (- (r * T)) * norm_cdf (- d2)) / 365);
     ("rho", - K * T * exp (- (r * T)) * norm_cdf (- d2) / 100)].
Proof.
  intros H d1 d2. unfold calculate_greeks.
  rewrite calculate_d1_d2_terms, (eqb_call_false _ H).
  replace (- r * T) with (- (r * T)) by ring. reflexivity.
Qed.

(** C3: on positive S, K, sigma, T the Greeks are the closed forms with
    their unit conventions: delta is Phi(d1) for a Call and Phi(d1) - 1 for
    a Put, gamma is phi(d1) / (S sigma sqrt T), vega is S phi(d1) sqrt T
    divided by 100, theta is the annualized form divided by 365, and rho is
    divided by 100. *)
Theorem greeks_closed_form (S K r sigma T : R) (option_type : string) :
  0 < S -> 0 < K -> 0 < sigma -> 0 < T ->
  let d1 := d1_term S K r sigma T in
  let d2 := d2_term S K r sigma T in
  let phi := norm_pdf d1 in
  (lower option_type = "call" ->
   calculate_greeks S K r sigma T option_type
   = [("delta", norm_cdf d1);
      ("gamma", phi / (S * sigma * sqrt T));
      ("vega", S * phi * sqrt T / 100);
      ("theta", (- S * phi * sigma / (2 * sqrt T)
                 - r * K * exp (- (r * T)) * norm_cdf d2) / 365);
      ("rho", K * T * exp (- (r * T)) * norm_cdf d2 / 100)])
  /\ (lower option_type = "put" ->
      calculate_greeks S K r sigma T option_type
      = [("delta", norm_cdf d1 - 1);
         ("gamma", phi / (S * sigma * sqrt T));
         ("vega", S * phi * sqrt T / 100);
         ("theta", (- S * phi * sigma / (2 * sqrt T)
                    + r * K * exp (- (r * T)) * norm_cdf (- d2)) / 365);
         ("rho", - K * T * exp (- (r * T)) * norm_cdf (- d2) / 100)]).
Proof.
  intros _ _ _ _ d1 d2 phi. split.
  - apply greeks_call_branch.
  - intro H. apply greeks_put_branch. rewrite H. discriminate.
Qed.

Lemma greeks_closed_form_witness :
  dict_get (calculate_greeks 100 100 0.05 0.2 1 "put") "vega"
  = Ok (100 * norm_pdf (d1_term 100 100 0.05 0.2 1) * sqrt 1 / 100).
Proof.
  destruct (greeks_closed_form 100 100 0.05 0.2 1 "put") as [_ Hput];
    try lra.
  rewrite Hput by reflexivity. reflexivity.
Defined.

(** * Time to expiry *)

(** C9: the time to expiry is the larger of the whole days between now and
    the target, over 365, and the floor 0.0001; it is strictly positive for
    every target, and past-due and same-day targets give the floor. *)
Theorem time_to_expiry_floor (now expiration_date : datetime) :
  let T := calculate_time_to_expiry now expiration_date in
  let epsilon := 0.0001 in
  0 < epsilon
  /\ T = Rmax (IZR (days (datetime_sub expiration_date now)) / 365.0) epsilon
  /\ days (datetime_sub expiration_date now)
     = ((expiration_date - now) / us_per_day)%Z
  /\ 0 < T
  /\ ((expiration_date - now < us_per_day)%Z -> T = epsilon).
Proof.
  cbv zeta. unfold calculate_time_to_expiry. cbn [days datetime_sub].
  replace 365.0 with 365 by lra.
  split; [lra |]. split; [reflexivity |]. split; [reflexivity |]. split.
  - eapply Rlt_le_trans; [| apply Rmax_r]. lra.
  - intro H. apply Rmax_right.
    assert (Hd : ((expiration_date - now) / us_per_day <= 0)%Z).
    { assert (((expiration_date - now) / us_per_day < 1)%Z); [| lia].
      apply Z.div_lt_upper_bound; unfold us_per_day in *; lia. }
    apply IZR_le in Hd. lra.
Qed.

Lemma time_to_expiry_floor_witness :
  calculate_time_to_expiry 86400000000%Z 43200000000%Z = 0.0001.
Proof.
  apply (time_to_expiry_floor 86400000000%Z 43200000000%Z). reflexivity.
Defined.

(** * The sensitivity sweep *)

(** ** Linearly spaced samples *)

Lemma set_last_length (y : list R) (v : R) :
  length (set_last y v) = length y.
Proof.
  induction y as [| a [| b y'] IH]; [reflexivity | reflexivity |].
  change (S (length (set_last (b :: y') v)) = S (length (b :: y'))).
  rewrite IH. reflexivity.
Qed.

Lemma set_last_nth_lt (y : list R) (v d : R) (i : nat) :
  (S i < length y)%nat -> nth i (set_last y v) d = nth i y d.
Proof.
  revert i. induction y as [| a [| b y'] IH]; intros i Hi.
  - simpl in Hi. lia.
  - simpl in Hi. lia.
  - destruct i as [| i]; [reflexivity |].
    change (nth i (set_last (b :: y') v) d = nth i (b :: y') d).
    apply IH. simpl in *. lia.
Qed.

Lemma set_last_nth_last (y : list R) (v d : R) :
  y <> [] -> nth (length y - 1) (set_last y v) d = v.
Proof.
  induction y as [| a [| b y'] IH]; intro Hne.
  - contradiction.
  - reflexivity.
  - change (nth (length (b :: y') - 0) (a :: set_last (b :: y') v) d = v).
    rewrite Nat.sub_0_r.
    change (nth (length y') (set_last (b :: y') v) d = v).
    replace (length y') with (length (b :: y') - 1)%nat by (simpl; lia).
    apply IH. discriminate.
Qed.

Lemma nth_map_lt {A B : Type} (f : A -> B) (l : list A) (i : nat)
  (dA : A) (dB : B) :
  (i < length l)%nat -> nth i (map f l) dB = f (nth i l dA).
Proof.
  intro Hi. rewrite (nth_indep _ dB (f dA)) by (rewrite length_map; exact Hi).
  apply map_nth.
Qed.

Lemma linspace_ok (lo hi : R) (num : Z) :
  (0 <= num)%Z ->
  exists xs,
    linspace lo hi num = Ok xs
    /\ length xs = Z.to_nat num
    /\ forall i, (i < Z.to_nat num)%nat -> nth i xs 0 = sample lo hi num i.
Proof.
  intro Hnum. unfold linspace, sample.
  destruct (Z.ltb_spec num 0) as [Hneg | _]; [lia |].
  eexists. split; [reflexivity |].
  set (N := Z.to_nat num).
  destruct (Z.ltb_spec 1 num) as [H1 | H1].
  - destruct (Z.ltb_spec 0 (num - 1)) as [_ | Hd]; [| lia].
    set (step := (hi - lo) / IZR (num - 1)).
    set (y := map (fun v => v + lo)
                  (map (fun v => v * step) (map INR (seq 0 N)))).
    assert (Hlen : length y = N)
      by (unfold y; rewrite !length_map, length_seq; reflexivity).
    assert (Hy : forall i, (i < N)%nat -> nth i y 0 = lo + INR i * step).
    { intros i Hi. unfold y.
      rewrite (nth_map_lt _ _ _ 0)
        by (rewrite !length_map, length_seq; exact Hi).
      rewrite (nth_map_lt _ _ _ 0)
        by (rewrite length_map, length_seq; exact Hi).
      rewrite (nth_map_lt _ _ _ 0%nat) by (rewrite length_seq; exact Hi).
      rewrite seq_nth by exact Hi. simpl (0 + i)%nat. ring. }
    split; [rewrite set_last_length; exact Hlen |].
    intros i Hi.
    destruct (Nat.eq_dec i (N - 1)) as [-> | Hne].
    + rewrite <- Hlen at 1. rewrite set_last_nth_last.
      * assert (E : INR (N - 1) = IZR (num - 1)).
        { rewrite INR_IZR_INZ. f_equal. unfold N. lia. }
        rewrite E. unfold step. field.
        apply not_0_IZR. lia.
      * intro E. rewrite E in Hlen. simpl in Hlen. unfold N in *. lia.
    + rewrite set_last_nth_lt by lia. apply Hy, Hi.
  - assert (HN : (N <= 1)%nat) by (unfold N; lia).
    destruct (Z.ltb_spec 0 (num - 1)) as [Hd | _]; [lia |].
    split; [rewrite !length_map, length_seq; reflexivity |].
    intros i Hi. assert (i = 0%nat) by lia. subst i.
    assert (N = 1%nat) by lia. rewrite H. simpl. ring.
Qed.

Lemma sample_first (lo hi : R) (num : Z) : sample lo hi num 0 = lo.
Proof. unfold sample. destruct (1 <? num)%Z; simpl; ring. Qed.

Lemma sample_last (lo hi : R) (num : Z) :
  (2 <= num)%Z -> sample lo hi num (Z.to_nat num - 1) = hi.
Proof.
  intro H. unfold sample.
  destruct (Z.ltb_spec 1 num) as [_ | H1]; [| lia].
  assert (E : INR (Z.to_nat num - 1) = IZR (num - 1)).
  { rewrite INR_IZR_INZ. f_equal. lia. }
  rewrite E. field. apply not_0_IZR. lia.
Qed.

Lemma sample_le (lo hi : R) (num : Z) (i j : nat) :
  lo <= hi -> (i <= j)%nat -> sample lo hi num i <= sample lo hi num j.
Proof.
  intros Hle Hij. unfold sample.
  destruct (Z.ltb_spec 1 num) as [H1 | _]; [| lra].
  assert (0 < IZR (num - 1)) by (apply IZR_lt; lia).
  assert (0 <= (hi - lo) / IZR (num - 1))
    by (apply Rmult_le_pos; [lra | left; apply Rinv_0_lt_compat; assumption]).
  apply le_INR in Hij. nra.
Qed.

Lemma sample_lt (lo hi : R) (num : Z) (i j : nat) :
  lo < hi -> (1 < num)%Z -> (i < j)%nat ->
  sample lo hi num i < sample lo hi num j.
Proof.
  intros Hlt H1 Hij. unfold sample.
  destruct (Z.ltb_spec 1 num) as [_ | H2]; [| lia].
  assert (0 < IZR (num - 1)) by (apply IZR_lt; lia).
  assert (0 < (hi - lo) / IZR (num - 1))
    by (apply Rdiv_lt_0_compat; lra).
  apply lt_INR in Hij. nra.
Qed.

(** ** The loop over the swept values *)

Lemma sweep_plan_cases (param : string) (S K sigma T range_pct lo hi : R)
  (vary : string) :
  sweep_plan param S K sigma T range_pct = Some (lo, hi, vary) ->
  (param = "spot" /\ vary = "S"
   /\ lo = S * (1 - range_pct) /\ hi = S * (1 + range_pct))
  \/ (param = "strike" /\ vary = "K"
      /\ lo = K * (1 - range_pct) /\ hi = K * (1 + range_pct))
  \/ (param = "volatility" /\ vary = "sigma"
      /\ lo = sigma * 0.5 /\ hi = sigma * 1.5)
  \/ (param = "time" /\ vary = "T" /\ lo = 0.01 /\ hi = T).
Proof.
  unfold sweep_plan.
  destruct (String.eqb_spec param "spot");
    [intro H; injection H as <- <- <-; auto 10 |].
  destruct (String.eqb_spec param "strike");
    [intro H; injection H as <- <- <-; auto 10 |].
  destruct (String.eqb_spec param "volatility");
    [intro H; injection H as <- <- <-; auto 10 |].
  destruct (String.eqb_spec param "time");
    [intro H; injection H as <- <- <-; auto 10 |].
  discriminate.
Qed.

Lemma greeks_shape (inputs : R * R * R * R * R) (option_type : string) :
  greeks_of inputs option_type
  = [("delta", greek_of "delta" inputs option_type);
     ("gamma", greek_of "gamma" inputs option_type);
     ("vega", greek_of "vega" inputs option_type);
     ("theta", greek_of "theta" inputs option_type);
     ("rho", greek_of "rho" inputs option_type)].
Proof.
  destruct inputs as [[[[S K] r] sigma] T]. unfold greek_of, greeks_of.
  destruct (String.eqb_spec (lower option_type) "call") as [E | E].
  - rewrite !(greeks_call_branch _ _ _ _ _ _ E). reflexivity.
  - rewrite !(greeks_put_branch _ _ _ _ _ _ E). reflexivity.
Qed.

Lemma append_items_series (deltas gammas vegas thetas rhos : list R)
  (d g v t rh : R) :
  append_items (greeks_series deltas gammas vegas thetas rhos)
    [("delta", d); ("gamma", g); ("vega", v); ("theta", t); ("rho", rh)]
  = Ok (greeks_series (deltas ++ [d]) (gammas ++ [g]) (vegas ++ [v])
                      (thetas ++ [t]) (rhos ++ [rh])).
Proof. reflexivity. Qed.

Lemma initial_greeks_dict :
  fold_left (fun (d : dict (list R)) greek => dict_set d greek [])
            ["delta"; "gamma"; "vega"; "theta"; "rho"] []
  = greeks_series [] [] [] [] [].
Proof. reflexivity. Qed.

Section Sweep.

Variables (S K r sigma T : R) (option_type param : string) (range_pct : R).
Variables (lo hi : R) (vary : string).
Hypothesis plan : sweep_plan param S K sigma T range_pct = Some (lo, hi, vary).

Let base_params : dict R :=
  [("S", S); ("K", K); ("r", r); ("sigma", sigma); ("T", T)].

Let inputs_at (x : R) : R * R * R * R * R := substitute param x S K r sigma T.

Lemma sweep_step_ok (prices deltas gammas vegas thetas rhos : list R) (x : R) :
  sweep_step base_params vary option_type
    (prices, greeks_series deltas gammas vegas thetas rhos) x
  = Ok (prices ++ [price_of (inputs_at x) option_type],
        greeks_series
          (deltas ++ [greek_of "delta" (inputs_at x) option_type])
          (gammas ++ [greek_of "gamma" (inputs_at x) option_type])
          (vegas ++ [greek_of "vega" (inputs_at x) option_type])
          (thetas ++ [greek_of "theta" (inputs_at x) option_type])
          (rhos ++ [greek_of "rho" (inputs_at x) option_type])).
Proof.
  unfold inputs_at, base_params.
  destruct (sweep_plan_cases _ _ _ _ _ _ _ _ _ plan)
    as [(-> & -> & _) | [(-> & -> & _) | [(-> & -> & _) | (-> & -> & _)]]];
    unfold sweep_step;
    cbn [dict_set dict_get String.eqb Ascii.eqb Bool.eqb bind substitute
         price_of];
    match goal with
    | |- context [append_items _ (calculate_greeks ?a ?b ?c ?d ?e ?o)] =>
        change (calculate_greeks a b c d e o) with (greeks_of (a, b, c, d, e) o)
    end;
    rewrite greeks_shape, append_items_series; reflexivity.
Qed.

Lemma sweep_loop_ok (x_values prices deltas gammas vegas thetas rhos : list R) :
  sweep_loop base_params vary option_type
    (prices, greeks_series deltas gammas vegas thetas rhos) x_values
  = Ok (prices ++ map (fun x => price_of (inputs_at x) option_type) x_values,
        greeks_series
          (deltas ++ map (fun x => greek_of "delta" (inputs_at x) option_type)
                         x_values)
          (gammas ++ map (fun x => greek_of "gamma" (inputs_at x) option_type)
                         x_values)
          (vegas ++ map (fun x => greek_of "vega" (inputs_at x) option_type)
                        x_values)
          (thetas ++ map (fun x => greek_of "theta" (inputs_at x) option_type)
                         x_values)
          (rhos ++ map (fun x => greek_of "rho" (inputs_at x) option_type)
                       x_values)).
Proof.
  revert prices deltas gammas vegas thetas rhos.
  induction x_values as [| x rest IH]; intros.
  - cbn [sweep_loop map]. rewrite !app_nil_r. reflexivity.
  - cbn [sweep_loop map]. rewrite sweep_step_ok. cbn [bind].
    rewrite IH, <- !app_assoc. reflexivity.
Qed.

(** The sweep of a known selector with a non-negative point count returns:
    the swept values are the linearly spaced samples, and the price and
    Greek series are the images of the swept values. *)
Lemma generate_sensitivity_data_ok (points : Z) (x_values : list R) :
  linspace lo hi points = Ok x_values ->
  generate_sensitivity_data S K r sigma T option_type param range_pct points
  = Ok (x_values,
        map (fun x => price_of (inputs_at x) option_type) x_values,
        greeks_series
          (map (fun x => greek_of "delta" (inputs_at x) option_type) x_values)
          (map (fun x => greek_of "gamma" (inputs_at x) option_type) x_values)
          (map (fun x => greek_of "vega" (inputs_at x) option_type) x_values)
          (map (fun x => greek_of "theta" (inputs_at x) option_type) x_values)
          (map (fun x => greek_of "rho" (inputs_at x) option_type) x_values)).
Proof.
  intro Hlin. unfold generate_sensitivity_data.
  rewrite initial_greeks_dict.
  pose proof (sweep_loop_ok x_values [] [] [] [] [] []) as Hloop.
  cbn [app] in Hloop. unfold base_params in Hloop.
  destruct (sweep_plan_cases _ _ _ _ _ _ _ _ _ plan)
    as [(Hp & Hv & Hlo & Hhi) | [(Hp & Hv & Hlo & Hhi)
       | [(Hp & Hv & Hlo & Hhi) | (Hp & Hv & Hlo & Hhi)]]];
    rewrite Hp, Hv, Hlo, Hhi in *;
    cbn [String.eqb Ascii.eqb Bool.eqb];
    rewrite Hlin; cbn [bind]; rewrite Hloop; reflexivity.
Qed.

End Sweep.

Lemma last_nth_eq (l : list R) (d : R) :
  last l d = nth (length l - 1) l d.
Proof.
  induction l as [| a [| b l'] IH]; [reflexivity | reflexivity |].
  change (last (b :: l') d = nth (length l') (b :: l') d).
  rewrite IH. simpl. rewrite Nat.sub_0_r. reflexivity.
Qed.

Lemma hd_nth_eq (l : list R) (d : R) : hd d l = nth 0 l d.
Proof. destruct l; reflexivity. Qed.


(** ** The swept values *)

(** C5, as the code has it: with at least two points the swept values are
    linearly spaced from the lower to the upper end of the swept interval,
    which is base (1 - range_pct) to base (1 + range_pct) for spot and
    strike, 0.5 sigma to 1.5 sigma for volatility whatever range_pct is, and
    0.01 to T for time; they ascend when the lower end does not exceed the
    upper end. *)
Theorem sweep_values_span (S K r sigma T : R) (option_type param : string)
  (range_pct : R) (points : Z) (lo hi : R) :
  (2 <= points)%Z ->
  (param = "spot" /\ lo = S * (1 - range_pct) /\ hi = S * (1 + range_pct))
  \/ (param = "strike"
      /\ lo = K * (1 - range_pct) /\ hi = K * (1 + range_pct))
  \/ (param = "volatility" /\ lo = sigma * 0.5 /\ hi = sigma * 1.5)
  \/ (param = "time" /\ lo = 0.01 /\ hi = T) ->
  exists x_values prices greeks_dict,
    generate_sensitivity_data S K r sigma T option_type param range_pct points
    = Ok (x_values, prices, greeks_dict)
    /\ length x_values = Z.to_nat points
    /\ (forall i, (i < Z.to_nat points)%nat ->
        nth i x_values 0 = lo + INR i * ((hi - lo) / IZR (points - 1)))
    /\ hd 0 x_values = lo
    /\ last x_values 0 = hi
    /\ (lo <= hi ->
        forall i j, (i <= j < Z.to_nat points)%nat ->
        nth i x_values 0 <= nth j x_values 0).
Proof.
  intros Hpoints Hsel.
  assert (plan : exists vary,
             sweep_plan param S K sigma T range_pct = Some (lo, hi, vary)).
  { destruct Hsel as [(-> & -> & ->) | [(-> & -> & ->)
      | [(-> & -> & ->) | (-> & -> & ->)]]]; eexists; reflexivity. }
  destruct plan as [vary plan].
  destruct (linspace_ok lo hi points) as (xs & Hlin & Hlen & Hnth); [lia |].
  exists xs. do 2 eexists.
  split; [exact (generate_sensitivity_data_ok _ _ _ _ _ _ _ _ _ _ _
                   plan _ _ Hlin) |].
  assert (Hsample : forall i, sample lo hi points i
                              = lo + INR i * ((hi - lo) / IZR (points - 1))).
  { intro i. unfold sample.
    destruct (Z.ltb_spec 1 points); [reflexivity | lia]. }
  split; [exact Hlen |]. split; [| split; [| split]].
  - intros i Hi. rewrite Hnth by exact Hi. apply Hsample.
  - rewrite hd_nth_eq, Hnth by lia. apply sample_first.
  - rewrite last_nth_eq, Hlen, Hnth by lia. apply sample_last, Hpoints.
  - intros Hle i j [Hij Hj]. rewrite !Hnth by lia.
    apply sample_le; assumption.
Qed.

Lemma sweep_values_span_witness :
  exists x_values prices greeks_dict,
    generate_sensitivity_data 100 100 0.05 0.2 1 "call" "spot" 0.2 50
    = Ok (x_values, prices, greeks_dict)
    /\ length x_values = 50%nat
    /\ (forall i, (i < 50)%nat ->
        nth i x_values 0
        = 100 * (1 - 0.2)
          + INR i * ((100 * (1 + 0.2) - 100 * (1 - 0.2)) / IZR (50 - 1)))
    /\ hd 0 x_values = 100 * (1 - 0.2)
    /\ last x_values 0 = 100 * (1 + 0.2)
    /\ (100 * (1 - 0.2) <= 100 * (1 + 0.2) ->
        forall i j, (i <= j < 50)%nat ->
        nth i x_values 0 <= nth j x_values 0).
Proof.
  apply (sweep_values_span 100 100 0.05 0.2 1 "call" "spot" 0.2 50);
    [lia | left; repeat split; reflexivity].
Defined.

Lemma linspace_volatility_example :
  linspace (0.2 * 0.5) (0.2 * 1.5) 3 = Ok [0.1; 0.2; 0.3].
Proof.
  unfold linspace. simpl. repeat f_equal; lra.
Qed.

(** C5 fails as stated: with sigma = 0.2 and range_pct = 0.2 the volatility
    sweep runs from 0.1 to 0.3, not from 0.16 to 0.24. *)
Lemma volatility_sweep_ignores_range :
  exists prices greeks_dict,
    generate_sensitivity_data 100 100 0.05 0.2 1 "call" "volatility" 0.2 3
    = Ok ([0.1; 0.2; 0.3], prices, greeks_dict)
    /\ hd 0 [0.1; 0.2; 0.3] <> 0.2 * (1 - 0.2)
    /\ last [0.1; 0.2; 0.3] 0 <> 0.2 * (1 + 0.2).
Proof.
  do 2 eexists. split.
  - apply (generate_sensitivity_data_ok 100 100 0.05 0.2 1 "call" "volatility"
             0.2 (0.2 * 0.5) (0.2 * 1.5) "sigma" eq_refl 3).
    exact linspace_volatility_example.
  - simpl. split; lra.
Qed.

(** ** Alignment of the sweep's series *)

(** C8, as the code has it: for a known selector and a point count N >= 0
    the swept values, the prices and the five Greek series all have length
    N; the i-th price and the i-th value of each Greek are computed from the
    i-th swept value substituted into the base inputs; and the swept values
    are strictly ascending when the lower end of the swept interval is
    strictly below its upper end. *)
Theorem sweep_alignment (S K r sigma T : R) (option_type param : string)
  (range_pct : R) (points : Z) (lo hi : R) (vary : string) :
  sweep_plan param S K sigma T range_pct = Some (lo, hi, vary) ->
  (0 <= points)%Z ->
  exists x_values prices deltas gammas vegas thetas rhos,
    generate_sensitivity_data S K r sigma T option_type param range_pct points
    = Ok (x_values, prices,
          [("delta", deltas); ("gamma", gammas); ("vega", vegas);
           ("theta", thetas); ("rho", rhos)])
    /\ length x_values = Z.to_nat points
    /\ length prices = Z.to_nat points
    /\ length deltas = Z.to_nat points
    /\ length gammas = Z.to_nat points
    /\ length vegas = Z.to_nat points
    /\ length thetas = Z.to_nat points
    /\ length rhos = Z.to_nat points
    /\ (forall i, (i < Z.to_nat points)%nat ->
        let inputs := substitute param (nth i x_values 0) S K r sigma T in
        nth i prices 0 = price_of inputs option_type
        /\ greeks_of inputs option_type
           = [("delta", nth i deltas 0); ("gamma", nth i gammas 0);
              ("vega", nth i vegas 0); ("theta", nth i thetas 0);
              ("rho", nth i rhos 0)])
    /\ (lo < hi ->
        forall i j, (i < j < Z.to_nat points)%nat ->
        nth i x_values 0 < nth j x_values 0).
Proof.
  intros plan Hpoints.
  destruct (linspace_ok lo hi points Hpoints) as (xs & Hlin & Hlen & Hnth).
  exists xs. do 6 eexists.
  split; [exact (generate_sensitivity_data_ok _ _ _ _ _ _ _ _ _ _ _
                   plan _ _ Hlin) |].
  rewrite !length_map.
  repeat (split; [exact Hlen |]). split.
  - intros i Hi inputs. rewrite <- Hlen in Hi.
    rewrite !(nth_map_lt _ _ _ 0) by exact Hi.
    split; [reflexivity | apply greeks_shape].
  - intros Hlt i j [Hij Hj]. rewrite !Hnth by lia.
    apply sample_lt; [exact Hlt | lia | exact Hij].
Qed.

Lemma sweep_alignment_witness :
  exists x_values prices deltas gammas vegas thetas rhos,
    generate_sensitivity_data 100 100 0.05 0.2 1 "put" "strike" 0.2 50
    = Ok (x_values, prices,
          [("delta", deltas); ("gamma", gammas); ("vega", vegas);
           ("theta", thetas); ("rho", rhos)])
    /\ length x_values = 50%nat
    /\ length prices = 50%nat
    /\ length deltas = 50%nat
    /\ length gammas = 50%nat
    /\ length vegas = 50%nat
    /\ length thetas = 50%nat
    /\ length rhos = 50%nat.
Proof.
  destruct (sweep_alignment 100 100 0.05 0.2 1 "put" "strike" 0.2 50
              (100 * (1 - 0.2)) (100 * (1 + 0.2)) "K" eq_refl)
    as (xs & ps & d & g & v & t & rh & H & H0 & H1 & H2 & H3 & H4 & H5 & H6 & _);
    [lia |].
  exists xs, ps, d, g, v, t, rh. repeat split; assumption.
Defined.

Lemma linspace_time_example : linspace 0.01 0.005 2 = Ok [0.01; 0.005].
Proof.
  unfold linspace. simpl. repeat f_equal; lra.
Qed.

(** C8 fails as stated: with T = 0.005 the time sweep starts at 0.01 and
    ends at 0.005, so its swept values descend. *)
Lemma time_sweep_descends :
  exists prices greeks_dict,
    generate_sensitivity_data 100 100 0.05 0.2 0.005 "call" "time" 0.2 2
    = Ok ([0.01; 0.005], prices, greeks_dict)
    /\ ~ nth 0 [0.01; 0.005] 0 < nth 1 [0.01; 0.005] 0.
Proof.
  do 2 eexists. split.
  - apply (generate_sensitivity_data_ok 100 100 0.05 0.2 0.005 "call" "time"
             0.2 0.01 0.005 "T" eq_refl 2).
    exact linspace_time_example.
  - simpl. lra.
Qed.

(** * Error behaviour *)


(** X9: a selector outside the four names is not rejected by a check of
    its own: no branch assigns the swept values, and the sweep fails at the
    loop header with the unbound local [x_values], whatever the other
    arguments are. *)
Lemma sweep_unknown_selector (S K r sigma T : R) (option_type param : string)
  (range_pct : R) (points : Z) :
  ~ In param ["spot"; "strike"; "volatility"; "time"] ->
  generate_sensitivity_data S K r sigma T option_type param range_pct points
  = Raise (UnboundLocalError "x_values").
Proof.
  intro Hn. unfold generate_sensitivity_data.
  destruct (String.eqb_spec param "spot"); [exfalso; apply Hn; simpl; auto |].
  destruct (String.eqb_spec param "strike");
    [exfalso; apply Hn; simpl; auto |].
  destruct (String.eqb_spec param "volatility");
    [exfalso; apply Hn; simpl; auto |].
  destruct (String.eqb_spec param "time");
    [exfalso; apply Hn; simpl; auto |].
  reflexivity.
Qed.

Lemma sweep_unknown_selector_witness :
  generate_sensitivity_data 100 100 0.05 0.2 1 "call" "rate" 0.2 50
  = Raise (UnboundLocalError "x_values").
Proof.
  apply sweep_unknown_selector. simpl.
  intros [H | [H | [H | [H | []]]]]; discriminate.
Defined.

(** X10: with one of the four selectors, a negative point count raises the
    library's ValueError from [linspace], before any price is computed. *)
Lemma sweep_negative_points (S K r sigma T : R) (option_type param : string)
  (range_pct : R) (points : Z) :
  In param ["spot"; "strike"; "volatility"; "time"] ->
  (points < 0)%Z ->
  generate_sensitivity_data S K r sigma T option_type param range_pct points
  = Raise ValueError.
Proof.
  intros Hparam Hneg. unfold generate_sensitivity_data, linspace.
  destruct (Z.ltb_spec points 0) as [_ | H]; [| lia].
  destruct Hparam as [<- | [<- | [<- | [<- | []]]]]; reflexivity.
Qed.

Lemma sweep_negative_points_witness :
  generate_sensitivity_data 100 100 0.05 0.2 1 "call" "spot" 0.2 (-1)
  = Raise ValueError.
Proof.
  apply sweep_negative_points; [simpl; auto | lia].
Defined.

(** * Historical volatility *)

(** A return is a number when the previous price is not zero, and NaN when
    both prices are zero. *)
Lemma pct_entry (x prev : R) :
  prev <> 0 -> fsub (fdiv (Fin x) (Fin prev)) (Fin 1) = Fin (x / prev - 1).
Proof.
  intro Hprev. unfold fsub, fneg.
  destruct (Req_dec_T 1 0) as [H | _]; [lra |].
  destruct (holds_fdiv (Fin x) (Fin prev) x prev (holds_Fin _) (holds_Fin _)
              Hprev) as [-> | [-> E]].
  - reflexivity.
  - rewrite E. cbn. f_equal. ring.
Qed.

Lemma pct_entry_zero : fsub (fdiv (Fin 0) (Fin 0)) (Fin 1) = NaN.
Proof.
  rewrite (fdiv_zero_zero (Fin 0) (Fin 0)) by apply holds_Fin. reflexivity.
Qed.

Lemma dropna_zero_prices (p : list R) :
  Forall (fun x => x = 0) p -> dropna (pct_change_from 0 p) = [].
Proof.
  induction 1 as [| x p Hx _ IH]; [reflexivity |]. subst x.
  cbn [pct_change_from]. rewrite pct_entry_zero. exact IH.
Qed.

Lemma fdiv_by_zero (x : R) :
  x <> 0 -> exists negative, fdiv (Fin x) (Fin 0) = Inf negative.
Proof.
  intro Hx. cbn -[is_zero signbit].
  assert (Hz : is_zero (Fin 0) = true) by (apply is_zero_Fin; reflexivity).
  rewrite Hz.
  destruct (is_zero (Fin x)) eqn:E; [apply is_zero_Fin in E; contradiction |].
  eexists. reflexivity.
Qed.

(** Every return of a series is NaN only if every price is zero. *)
Lemma dropna_nil_zero_prices (prev : R) (p : list R) :
  p <> [] -> dropna (pct_change_from prev p) = [] ->
  Forall (fun x => x = 0) (prev :: p).
Proof.
  revert prev. induction p as [| x p IH]; intros prev Hp H; [contradiction |].
  cbn [pct_change_from] in H.
  destruct (Req_dec prev 0) as [-> | Hprev].
  2:{ rewrite (pct_entry _ _ Hprev) in H. discriminate. }
  destruct (Req_dec x 0) as [-> | Hx].
  2:{ destruct (fdiv_by_zero x Hx) as (negative & E). rewrite E in H.
      unfold fsub, fneg in H.
      destruct (Req_dec_T 1 0); destruct negative; discriminate. }
  rewrite pct_entry_zero in H. cbn [dropna] in H.
  constructor; [reflexivity |].
  destruct p as [| y p]; [repeat constructor |].
  apply IH; [discriminate | exact H].
Qed.

(** C6, as the code has it: a price series in which no return other than NaN
    exists gives exactly the fallback 0.2 for every window length.  These
    series are the empty series, every 1-element series and every series of
    zero prices, and no others. *)
Theorem historical_volatility_fallback (price_data : list R) (window : Z) :
  ((length price_data <= 1)%nat \/ Forall (fun x => x = 0) price_data
   <-> dropna (pct_change price_data) = [])
  /\ ((length price_data <= 1)%nat \/ Forall (fun x => x = 0) price_data ->
      (0 <= window)%Z ->
      calculate_historical_volatility price_data window = Ok (Some 0.2)).
Proof.
  assert (E : (length price_data <= 1)%nat
              \/ Forall (fun x => x = 0) price_data ->
              dropna (pct_change price_data) = []).
  { intros [Hlen | Hzero].
    - destruct price_data as [| p [| q rest]]; [reflexivity | reflexivity |].
      simpl in Hlen. lia.
    - destruct Hzero as [| x p Hx Hp]; [reflexivity |]. subst x.
      cbn [pct_change dropna]. apply dropna_zero_prices, Hp. }
  split; [split; [exact E |] |].
  - intro H. destruct price_data as [| p [| q rest]];
      [left; simpl; lia | left; simpl; lia |].
    right. cbn [pct_change dropna] in H.
    apply dropna_nil_zero_prices; [discriminate | exact H].
  - intros Hseries Hw.
    unfold calculate_historical_volatility, rolling_std.
    rewrite (E Hseries).
    destruct (Z.ltb_spec window 0) as [H | _]; [lia | reflexivity].
Qed.

Lemma historical_volatility_fallback_witness :
  calculate_historical_volatility [0; 0] 30 = Ok (Some 0.2).
Proof.
  apply historical_volatility_fallback; [right; repeat constructor | lia].
Defined.

(** C6 fails as stated: two prices give one return observation, fewer than
    two, and the result is NaN, not the fallback. *)
Lemma one_return_gives_nan :
  dropna (pct_change [100; 110]) = [Fin (110 / 100 - 1)]
  /\ calculate_historical_volatility [100; 110] 30 = Ok None
  /\ calculate_historical_volatility [100; 110] 30 <> Ok (Some 0.2).
Proof.
  assert (E : dropna (pct_change [100; 110]) = [Fin (110 / 100 - 1)]).
  { cbn [pct_change pct_change_from]. rewrite pct_entry by lra. reflexivity. }
  split; [exact E |].
  assert (H : calculate_historical_volatility [100; 110] 30 = Ok None).
  { unfold calculate_historical_volatility. rewrite E. reflexivity. }
  split; [exact H |]. rewrite H. discriminate.
Qed.

(** * The Greeks as slopes of the price *)

Lemma sigma_sqrt_T_pos (sigma T : R) : 0 < sigma -> 0 < T -> 0 < sigma * sqrt T.
Proof.
  intros Hs HT. apply Rmult_lt_0_compat; [exact Hs | apply sqrt_lt_R0, HT].
Qed.

(** The identity behind the shared form of gamma and vega:
    S phi(d1) = K exp(-rT) phi(d2). *)
Lemma pdf_d1_d2 (S K r sigma T : R) :
  0 < S -> 0 < K -> 0 < sigma -> 0 < T ->
  S * norm_pdf (d1_term S K r sigma T)
  = K * exp (- (r * T)) * norm_pdf (d2_term S K r sigma T).
Proof.
  intros HS HK Hs HT.
  pose proof (sigma_sqrt_T_pos sigma T Hs HT) as Hv.
  pose proof sqrt_2PI_pos as Hc.
  assert (HqT : 0 < sqrt T) by (apply sqrt_lt_R0, HT).
  assert (HsT : sqrt T * sqrt T = T) by (apply sqrt_sqrt; lra).
  unfold d2_term, norm_pdf.
  set (d1 := d1_term S K r sigma T).
  assert (Hd1 : d1 * (sigma * sqrt T)
                = ln (S / K) + (r + 0.5 * sigma ^ 2) * T).
  { unfold d1, d1_term. field. repeat split; lra. }
  assert (Hexp : - ((d1 - sigma * sqrt T) * (d1 - sigma * sqrt T)) / 2
                 = - (d1 * d1) / 2 + (ln (S / K) + r * T)).
  { transitivity (- (d1 * d1) / 2 + d1 * (sigma * sqrt T)
                  - sigma * sigma * (sqrt T * sqrt T) / 2); [field |].
    rewrite Hd1, HsT. clearbody d1. lra. }
  rewrite Hexp.
  rewrite !exp_plus, exp_ln by (apply Rdiv_lt_0_compat; assumption).
  assert (He : exp (- (r * T)) * exp (r * T) = 1)
    by (rewrite <- exp_plus, Rplus_opp_l; apply exp_0).
  transitivity (S * exp (- (d1 * d1) / 2) / sqrt (2 * PI)
                * (exp (- (r * T)) * exp (r * T))).
  - rewrite He. field. lra.
  - field. split; lra.
Qed.

(** ** Rules of differentiation, for functions written as abstractions *)

Lemma dlim_const (c x : R) : derivable_pt_lim (fun _ => c) x 0.
Proof. exact (derivable_pt_lim_const c x). Qed.

Lemma dlim_id (x : R) : derivable_pt_lim (fun q => q) x 1.
Proof. exact (derivable_pt_lim_id x). Qed.

Lemma dlim_plus (f g : R -> R) (x l1 l2 : R) :
  derivable_pt_lim f x l1 -> derivable_pt_lim g x l2 ->
  derivable_pt_lim (fun q => f q + g q) x (l1 + l2).
Proof. exact (derivable_pt_lim_plus f g x l1 l2). Qed.

Lemma dlim_minus (f g : R -> R) (x l1 l2 : R) :
  derivable_pt_lim f x l1 -> derivable_pt_lim g x l2 ->
  derivable_pt_lim (fun q => f q - g q) x (l1 - l2).
Proof. exact (derivable_pt_lim_minus f g x l1 l2). Qed.

Lemma dlim_mult (f g : R -> R) (x l1 l2 : R) :
  derivable_pt_lim f x l1 -> derivable_pt_lim g x l2 ->
  derivable_pt_lim (fun q => f q * g q) x (l1 * g x + f x * l2).
Proof. exact (derivable_pt_lim_mult f g x l1 l2). Qed.

Lemma dlim_div (f g : R -> R) (x l1 l2 : R) :
  derivable_pt_lim f x l1 -> derivable_pt_lim g x l2 -> g x <> 0 ->
  derivable_pt_lim (fun q => f q / g q) x
    ((l1 * g x - l2 * f x) / Rsqr (g x)).
Proof. exact (derivable_pt_lim_div f g x l1 l2). Qed.

Lemma dlim_opp (f : R -> R) (x l : R) :
  derivable_pt_lim f x l -> derivable_pt_lim (fun q => - f q) x (- l).
Proof. exact (derivable_pt_lim_opp f x l). Qed.

Lemma dlim_comp (f g : R -> R) (x l1 l2 : R) :
  derivable_pt_lim f x l1 -> derivable_pt_lim g (f x) l2 ->
  derivable_pt_lim (fun q => g (f q)) x (l2 * l1).
Proof. exact (derivable_pt_lim_comp f g x l1 l2). Qed.

Lemma dlim_ln (f : R -> R) (x l : R) :
  derivable_pt_lim f x l -> 0 < f x ->
  derivable_pt_lim (fun q => ln (f q)) x (/ f x * l).
Proof.
  intros Hf Hpos. apply (dlim_comp f ln); [exact Hf |].
  apply derivable_pt_lim_ln, Hpos.
Qed.

Lemma dlim_sqrt (f : R -> R) (x l : R) :
  derivable_pt_lim f x l -> 0 < f x ->
  derivable_pt_lim (fun q => sqrt (f q)) x (/ (2 * sqrt (f x)) * l).
Proof.
  intros Hf Hpos. apply (dlim_comp f sqrt); [exact Hf |].
  apply derivable_pt_lim_sqrt, Hpos.
Qed.

Lemma dlim_exp (f : R -> R) (x l : R) :
  derivable_pt_lim f x l ->
  derivable_pt_lim (fun q => exp (f q)) x (exp (f x) * l).
Proof.
  intro Hf. apply (dlim_comp f exp); [exact Hf |].
  apply derivable_pt_lim_exp.
Qed.

Lemma dlim_cdf (f : R -> R) (x l : R) :
  derivable_pt_lim f x l ->
  derivable_pt_lim (fun q => norm_cdf (f q)) x (norm_pdf (f x) * l).
Proof.
  intro Hf. apply (dlim_comp f norm_cdf); [exact Hf |].
  apply norm_cdf_derivable.
Qed.

Lemma dlim_pow (f : R -> R) (n : nat) (x l : R) :
  derivable_pt_lim f x l ->
  derivable_pt_lim (fun q => f q ^ n) x (INR n * f x ^ pred n * l).
Proof.
  intro Hf. apply (dlim_comp f (fun y => y ^ n)); [exact Hf |].
  apply derivable_pt_lim_pow.
Qed.

Lemma dlim_val (f : R -> R) (x l l' : R) :
  derivable_pt_lim f x l -> l = l' -> derivable_pt_lim f x l'.
Proof. intros H <-. exact H. Qed.

Ltac dlim :=
  repeat first
    [ apply dlim_const | apply dlim_id
    | eapply dlim_minus | eapply dlim_plus | eapply dlim_div
    | eapply dlim_mult | eapply dlim_opp | eapply dlim_ln | eapply dlim_sqrt
    | eapply dlim_exp | eapply dlim_cdf | eapply dlim_pow ].

Ltac dlim_side :=
  cbv beta;
  first
    [ assumption | lra
    | apply Rgt_not_eq; assumption
    | apply Rdiv_lt_0_compat; assumption
    | apply Rgt_not_eq, sigma_sqrt_T_pos; assumption ].

(** ** Slopes of the intermediate terms *)

Section Slopes.

Variables S K r sigma T : R.
Hypotheses (HS : 0 < S) (HK : 0 < K) (Hsigma : 0 < sigma) (HT : 0 < T).

Lemma sqrt_T_pos : 0 < sqrt T.
Proof. apply sqrt_lt_R0, HT. Qed.

Lemma d1_slope_spot :
  derivable_pt_lim (fun q => d1_term q K r sigma T) S
    (/ (S * sigma * sqrt T)).
Proof.
  pose proof sqrt_T_pos as Hq. unfold d1_term.
  eapply dlim_val; [dlim; dlim_side |].
  cbv beta. unfold Rsqr. field. repeat split; lra.
Qed.

Lemma d2_slope_spot :
  derivable_pt_lim (fun q => d2_term q K r sigma T) S
    (/ (S * sigma * sqrt T)).
Proof.
  unfold d2_term.
  eapply dlim_val; [eapply dlim_minus; [apply d1_slope_spot | dlim] |].
  lra.
Qed.

Lemma d1_slope_rate :
  derivable_pt_lim (fun q => d1_term S K q sigma T) r (T / (sigma * sqrt T)).
Proof.
  pose proof sqrt_T_pos as Hq. unfold d1_term.
  eapply dlim_val; [dlim; dlim_side |].
  cbv beta. unfold Rsqr. field. repeat split; lra.
Qed.

Lemma d2_slope_rate :
  derivable_pt_lim (fun q => d2_term S K q sigma T) r (T / (sigma * sqrt T)).
Proof.
  unfold d2_term.
  eapply dlim_val; [eapply dlim_minus; [apply d1_slope_rate | dlim] |].
  lra.
Qed.

Lemma d1_d2_slope_volatility :
  exists D,
    derivable_pt_lim (fun q => d1_term S K r q T) sigma D
    /\ derivable_pt_lim (fun q => d2_term S K r q T) sigma (D - sqrt T).
Proof.
  pose proof sqrt_T_pos as Hq.
  assert (H1 : exists D, derivable_pt_lim (fun q => d1_term S K r q T) sigma D).
  { unfold d1_term. eexists. dlim; dlim_side. }
  destruct H1 as [D HD]. exists D. split; [exact HD |].
  unfold d2_term.
  eapply dlim_val; [eapply dlim_minus; [exact HD | dlim] |].
  cbv beta. lra.
Qed.

Lemma d1_d2_slope_time :
  exists D,
    derivable_pt_lim (fun q => d1_term S K r sigma q) T D
    /\ derivable_pt_lim (fun q => d2_term S K r sigma q) T
         (D - sigma / (2 * sqrt T)).
Proof.
  pose proof sqrt_T_pos as Hq.
  assert (H1 : exists D, derivable_pt_lim (fun q => d1_term S K r sigma q) T D).
  { unfold d1_term. eexists. dlim; dlim_side. }
  destruct H1 as [D HD]. exists D. split; [exact HD |].
  unfold d2_term.
  eapply dlim_val; [eapply dlim_minus; [exact HD | dlim; dlim_side] |].
  cbv beta. field. lra.
Qed.

End Slopes.

(** ** Slope of a price written on curves *)

(** The Call form along curves [s], [e], [d1], [d2] of spot, discounted
    strike and intermediate terms that keep s phi(d1) = e phi(d2) at the
    point of differentiation. *)
Lemma dlim_call_form (s e d1 d2 : R -> R) (p s' e' d1' d2' : R) :
  derivable_pt_lim s p s' -> derivable_pt_lim e p e' ->
  derivable_pt_lim d1 p d1' -> derivable_pt_lim d2 p d2' ->
  s p * norm_pdf (d1 p) = e p * norm_pdf (d2 p) ->
  derivable_pt_lim (fun q => s q * norm_cdf (d1 q) - e q * norm_cdf (d2 q)) p
    (s' * norm_cdf (d1 p) - e' * norm_cdf (d2 p)
     + s p * norm_pdf (d1 p) * (d1' - d2')).
Proof.
  intros Hs He Hd1 Hd2 Hid.
  eapply dlim_val.
  - apply (dlim_minus (fun q => s q * norm_cdf (d1 q))
                      (fun q => e q * norm_cdf (d2 q)));
      (apply dlim_mult; [eassumption | apply dlim_cdf; eassumption]).
  - cbv beta.
    replace (e p * (norm_pdf (d2 p) * d2'))
      with (s p * norm_pdf (d1 p) * d2') by (rewrite Hid; ring).
    ring.
Qed.

Lemma dlim_put_form (s e d1 d2 : R -> R) (p s' e' d1' d2' : R) :
  derivable_pt_lim s p s' -> derivable_pt_lim e p e' ->
  derivable_pt_lim d1 p d1' -> derivable_pt_lim d2 p d2' ->
  s p * norm_pdf (d1 p) = e p * norm_pdf (d2 p) ->
  derivable_pt_lim
    (fun q => e q * norm_cdf (- d2 q) - s q * norm_cdf (- d1 q)) p
    (s' * norm_cdf (d1 p) - e' * norm_cdf (d2 p)
     + s p * norm_pdf (d1 p) * (d1' - d2') - s' + e').
Proof.
  intros Hs He Hd1 Hd2 Hid.
  apply dlim_ext with
    (fun q => s q * norm_cdf (d1 q) - e q * norm_cdf (d2 q) - s q + e q).
  - intro y. rewrite !norm_cdf_opp. ring.
  - apply (dlim_plus
             (fun q => s q * norm_cdf (d1 q) - e q * norm_cdf (d2 q) - s q) e);
      [| exact He].
    apply (dlim_minus
             (fun q => s q * norm_cdf (d1 q) - e q * norm_cdf (d2 q)) s);
      [| exact Hs].
    apply dlim_call_form; assumption.
Qed.

Section GreeksAreSlopes.

Variables (S K r sigma T : R) (option_type : string).
Hypotheses (HS : 0 < S) (HK : 0 < K) (Hsigma : 0 < sigma) (HT : 0 < T).

Let d1 := d1_term S K r sigma T.
Let d2 := d2_term S K r sigma T.

Lemma price_slope_spot :
  derivable_pt_lim (fun q => calculate_option_price q K r sigma T option_type)
    S (if String.eqb (lower option_type) "call" then norm_cdf d1
       else norm_cdf d1 - 1).
Proof.
  pose proof (pdf_d1_d2 S K r sigma T HS HK Hsigma HT) as Hid.
  pose proof (d1_slope_spot S K r sigma T HS HK Hsigma HT) as H1.
  pose proof (d2_slope_spot S K r sigma T HS HK Hsigma HT) as H2.
  destruct (String.eqb_spec (lower option_type) "call") as [E | E].
  - apply dlim_ext with
      (fun q => q * norm_cdf (d1_term q K r sigma T)
                - K * exp (- (r * T)) * norm_cdf (d2_term q K r sigma T)).
    + intro y. symmetry. apply price_call_branch, E.
    + eapply dlim_val.
      * apply (dlim_call_form (fun q => q) (fun _ => K * exp (- (r * T)))
                 (fun q => d1_term q K r sigma T)
                 (fun q => d2_term q K r sigma T));
          [dlim | dlim | exact H1 | exact H2 | exact Hid].
      * unfold d1. ring.
  - apply dlim_ext with
      (fun q => K * exp (- (r * T)) * norm_cdf (- d2_term q K r sigma T)
                - q * norm_cdf (- d1_term q K r sigma T)).
    + intro y. symmetry. apply price_put_branch, E.
    + eapply dlim_val.
      * apply (dlim_put_form (fun q => q) (fun _ => K * exp (- (r * T)))
                 (fun q => d1_term q K r sigma T)
                 (fun q => d2_term q K r sigma T));
          [dlim | dlim | exact H1 | exact H2 | exact Hid].
      * unfold d1. ring.
Qed.

Lemma delta_slope_spot :
  derivable_pt_lim
    (fun q => greek_of "delta" (q, K, r, sigma, T) option_type)
    S (norm_pdf d1 / (S * sigma * sqrt T)).
Proof.
  pose proof (d1_slope_spot S K r sigma T HS HK Hsigma HT) as H1.
  pose proof (sqrt_T_pos T HT) as Hq.
  destruct (String.eqb_spec (lower option_type) "call") as [E | E].
  - apply dlim_ext with (fun q => norm_cdf (d1_term q K r sigma T)).
    + intro y. unfold greek_of, greeks_of.
      rewrite (greeks_call_branch _ _ _ _ _ _ E). reflexivity.
    + eapply dlim_val; [apply dlim_cdf; exact H1 |].
      unfold d1. field. repeat split; lra.
  - apply dlim_ext with (fun q => norm_cdf (d1_term q K r sigma T) - 1).
    + intro y. unfold greek_of, greeks_of.
      rewrite (greeks_put_branch _ _ _ _ _ _ E). reflexivity.
    + eapply dlim_val;
        [apply dlim_minus; [apply dlim_cdf; exact H1 | dlim] |].
      unfold d1. field. repeat split; lra.
Qed.

Lemma price_slope_volatility :
  derivable_pt_lim (fun q => calculate_option_price S K r q T option_type)
    sigma (S * norm_pdf d1 * sqrt T).
Proof.
  pose proof (pdf_d1_d2 S K r sigma T HS HK Hsigma HT) as Hid.
  destruct (d1_d2_slope_volatility S K r sigma T Hsigma HT)
    as (D & H1 & H2).
  destruct (String.eqb_spec (lower option_type) "call") as [E | E].
  - apply dlim_ext with
      (fun q => S * norm_cdf (d1_term S K r q T)
                - K * exp (- (r * T)) * norm_cdf (d2_term S K r q T)).
    + intro y. symmetry. apply price_call_branch, E.
    + eapply dlim_val.
      * apply (dlim_call_form (fun _ => S) (fun _ => K * exp (- (r * T)))
                 (fun q => d1_term S K r q T) (fun q => d2_term S K r q T));
          [dlim | dlim | exact H1 | exact H2 | exact Hid].
      * unfold d1. ring.
  - apply dlim_ext with
      (fun q => K * exp (- (r * T)) * norm_cdf (- d2_term S K r q T)
                - S * norm_cdf (- d1_term S K r q T)).
    + intro y. symmetry. apply price_put_branch, E.
    + eapply dlim_val.
      * apply (dlim_put_form (fun _ => S) (fun _ => K * exp (- (r * T)))
                 (fun q => d1_term S K r q T) (fun q => d2_term S K r q T));
          [dlim | dlim | exact H1 | exact H2 | exact Hid].
      * unfold d1. ring.
Qed.

Lemma price_slope_rate :
  derivable_pt_lim (fun q => calculate_option_price S K q sigma T option_type)
    r (if String.eqb (lower option_type) "call"
       then K * T * exp (- (r * T)) * norm_cdf d2
       else - K * T * exp (- (r * T)) * norm_cdf (- d2)).
Proof.
  pose proof (pdf_d1_d2 S K r sigma T HS HK Hsigma HT) as Hid.
  pose proof (d1_slope_rate S K r sigma T Hsigma HT) as H1.
  pose proof (d2_slope_rate S K r sigma T Hsigma HT) as H2.
  assert (He : derivable_pt_lim (fun q => K * exp (- (q * T))) r
                 (- T * (K * exp (- (r * T))))).
  { eapply dlim_val; [dlim |]. cbv beta. ring. }
  destruct (String.eqb_spec (lower option_type) "call") as [E | E].
  - apply dlim_ext with
      (fun q => S * norm_cdf (d1_term S K q sigma T)
                - K * exp (- (q * T)) * norm_cdf (d2_term S K q sigma T)).
    + intro y. symmetry. apply price_call_branch, E.
    + eapply dlim_val.
      * apply (dlim_call_form (fun _ => S) (fun q => K * exp (- (q * T)))
                 (fun q => d1_term S K q sigma T)
                 (fun q => d2_term S K q sigma T));
          [dlim | exact He | exact H1 | exact H2 | exact Hid].
      * unfold d2. ring.
  - apply dlim_ext with
      (fun q => K * exp (- (q * T)) * norm_cdf (- d2_term S K q sigma T)
                - S * norm_cdf (- d1_term S K q sigma T)).
    + intro y. symmetry. apply price_put_branch, E.
    + eapply dlim_val.
      * apply (dlim_put_form (fun _ => S) (fun q => K * exp (- (q * T)))
                 (fun q => d1_term S K q sigma T)
                 (fun q => d2_term S K q sigma T));
          [dlim | exact He | exact H1 | exact H2 | exact Hid].
      * unfold d2. rewrite norm_cdf_opp. ring.
Qed.

Lemma price_slope_time :
  derivable_pt_lim (fun q => calculate_option_price S K r sigma q option_type)
    T (if String.eqb (lower option_type) "call"
       then S * norm_pdf d1 * sigma / (2 * sqrt T)
            + r * K * exp (- (r * T)) * norm_cdf d2
       else S * norm_pdf d1 * sigma / (2 * sqrt T)
            - r * K * exp (- (r * T)) * norm_cdf (- d2)).
Proof.
  pose proof (pdf_d1_d2 S K r sigma T HS HK Hsigma HT) as Hid.
  pose proof (sqrt_T_pos T HT) as Hq.
  destruct (d1_d2_slope_time S K r sigma T Hsigma HT) as (D & H1 & H2).
  assert (He : derivable_pt_lim (fun q => K * exp (- (r * q))) T
                 (- r * (K * exp (- (r * T))))).
  { eapply dlim_val; [dlim |]. cbv beta. ring. }
  destruct (String.eqb_spec (lower option_type) "call") as [E | E].
  - apply dlim_ext with
      (fun q => S * norm_cdf (d1_term S K r sigma q)
                - K * exp (- (r * q)) * norm_cdf (d2_term S K r sigma q)).
    + intro y. symmetry. apply price_call_branch, E.
    + eapply dlim_val.
      * apply (dlim_call_form (fun _ => S) (fun q => K * exp (- (r * q)))
                 (fun q => d1_term S K r sigma q)
                 (fun q => d2_term S K r sigma q));
          [dlim | exact He | exact H1 | exact H2 | exact Hid].
      * unfold d1, d2. field. lra.
  - apply dlim_ext with
      (fun q => K * exp (- (r * q)) * norm_cdf (- d2_term S K r sigma q)
                - S * norm_cdf (- d1_term S K r sigma q)).
    + intro y. symmetry. apply price_put_branch, E.
    + eapply dlim_val.
      * apply (dlim_put_form (fun _ => S) (fun q => K * exp (- (r * q)))
                 (fun q => d1_term S K r sigma q)
                 (fun q => d2_term S K r sigma q));
          [dlim | exact He | exact H1 | exact H2 | exact Hid].
      * unfold d1, d2. rewrite norm_cdf_opp. field. lra.
Qed.

End GreeksAreSlopes.

(** ** The Greeks returned are the slopes of the price returned *)

(** X1: on positive S, K, sigma, T and for every option type, the delta
    returned by [calculate_greeks] is the derivative of the price returned by
    [calculate_option_price] with respect to the spot price. *)
Theorem delta_is_spot_slope_of_price (S K r sigma T : R)
  (option_type : string) :
  0 < S -> 0 < K -> 0 < sigma -> 0 < T ->
  exists delta,
    dict_get (calculate_greeks S K r sigma T option_type) "delta" = Ok delta
    /\ derivable_pt_lim
         (fun s => calculate_option_price s K r sigma T option_type) S delta.
Proof.
  intros HS HK Hsigma HT.
  pose proof (price_slope_spot S K r sigma T option_type HS HK Hsigma HT) as H.
  cbv zeta in H.
  destruct (String.eqb_spec (lower option_type) "call") as [E | E].
  - rewrite (greeks_call_branch _ _ _ _ _ _ E). eexists.
    split; [reflexivity | exact H].
  - rewrite (greeks_put_branch _ _ _ _ _ _ E). eexists.
    split; [reflexivity | exact H].
Qed.

Lemma delta_is_spot_slope_of_price_witness :
  exists delta,
    dict_get (calculate_greeks 100 100 0.05 0.2 1 "put") "delta" = Ok delta
    /\ derivable_pt_lim
         (fun s => calculate_option_price s 100 0.05 0.2 1 "put") 100 delta.
Proof. apply delta_is_spot_slope_of_price; lra. Defined.

(** X2: on positive S, K, sigma, T and for every option type, the gamma
    returned is the derivative of the delta returned with respect to the
    spot price. *)
Theorem gamma_is_spot_slope_of_delta (S K r sigma T : R)
  (option_type : string) :
  0 < S -> 0 < K -> 0 < sigma -> 0 < T ->
  exists (delta : R -> R) (gamma : R),
    (forall s,
       dict_get (calculate_greeks s K r sigma T option_type) "delta"
       = Ok (delta s))
    /\ dict_get (calculate_greeks S K r sigma T option_type) "gamma" = Ok gamma
    /\ derivable_pt_lim delta S gamma.
Proof.
  intros HS HK Hsigma HT.
  pose proof (delta_slope_spot S K r sigma T option_type HS HK Hsigma HT) as H.
  cbv zeta in H.
  exists (fun s => greek_of "delta" (s, K, r, sigma, T) option_type).
  destruct (String.eqb_spec (lower option_type) "call") as [E | E].
  - eexists. split; [| split; [| exact H]].
    + intro s. unfold greek_of, greeks_of.
      rewrite (greeks_call_branch _ _ _ _ _ _ E). reflexivity.
    + rewrite (greeks_call_branch _ _ _ _ _ _ E). reflexivity.
  - eexists. split; [| split; [| exact H]].
    + intro s. unfold greek_of, greeks_of.
      rewrite (greeks_put_branch _ _ _ _ _ _ E). reflexivity.
    + rewrite (greeks_put_branch _ _ _ _ _ _ E). reflexivity.
Qed.

Lemma gamma_is_spot_slope_of_delta_witness :
  exists (delta : R -> R) (gamma : R),
    (forall s,
       dict_get (calculate_greeks s 100 0.05 0.2 1 "call") "delta"
       = Ok (delta s))
    /\ dict_get (calculate_greeks 100 100 0.05 0.2 1 "call") "gamma" = Ok gamma
    /\ derivable_pt_lim delta 100 gamma.
Proof. apply gamma_is_spot_slope_of_delta; lra. Defined.

(** X3: on positive S, K, sigma, T and for every option type, one hundred
    times the vega returned is the derivative of the price with respect to
    the volatility. *)
Theorem vega_is_volatility_slope_of_price (S K r sigma T : R)
  (option_type : string) :
  0 < S -> 0 < K -> 0 < sigma -> 0 < T ->
  exists vega,
    dict_get (calculate_greeks S K r sigma T option_type) "vega" = Ok vega
    /\ derivable_pt_lim
         (fun v => calculate_option_price S K r v T option_type)
         sigma (100 * vega).
Proof.
  intros HS HK Hsigma HT.
  pose proof (price_slope_volatility S K r sigma T option_type
                HS HK Hsigma HT) as H.
  cbv zeta in H.
  destruct (String.eqb_spec (lower option_type) "call") as [E | E].
  - rewrite (greeks_call_branch _ _ _ _ _ _ E). eexists.
    split; [reflexivity |]. eapply dlim_val; [exact H | field].
  - rewrite (greeks_put_branch _ _ _ _ _ _ E). eexists.
    split; [reflexivity |]. eapply dlim_val; [exact H | field].
Qed.

Lemma vega_is_volatility_slope_of_price_witness :
  exists vega,
    dict_get (calculate_greeks 100 100 0.05 0.2 1 "call") "vega" = Ok vega
    /\ derivable_pt_lim
         (fun v => calculate_option_price 100 100 0.05 v 1 "call")
         0.2 (100 * vega).
Proof. apply vega_is_volatility_slope_of_price; lra. Defined.

(** X4: on positive S, K, sigma, T and for every option type, one hundred
    times the rho returned is the derivative of the price with respect to
    the risk-free rate. *)
Theorem rho_is_rate_slope_of_price (S K r sigma T : R)
  (option_type : string) :
  0 < S -> 0 < K -> 0 < sigma -> 0 < T ->
  exists rho,
    dict_get (calculate_greeks S K r sigma T option_type) "rho" = Ok rho
    /\ derivable_pt_lim
         (fun q => calculate_option_price S K q sigma T option_type)
         r (100 * rho).
Proof.
  intros HS HK Hsigma HT.
  pose proof (price_slope_rate S K r sigma T option_type HS HK Hsigma HT) as H.
  cbv zeta in H.
  destruct (String.eqb_spec (lower option_type) "call") as [E | E].
  - rewrite (greeks_call_branch _ _ _ _ _ _ E). eexists.
    split; [reflexivity |]. eapply dlim_val; [exact H | field].
  - rewrite (greeks_put_branch _ _ _ _ _ _ E). eexists.
    split; [reflexivity |]. eapply dlim_val; [exact H | field].
Qed.

Lemma rho_is_rate_slope_of_price_witness :
  exists rho,
    dict_get (calculate_greeks 100 100 0.05 0.2 1 "put") "rho" = Ok rho
    /\ derivable_pt_lim
         (fun q => calculate_option_price 100 100 q 0.2 1 "put")
         0.05 (100 * rho).
Proof. apply rho_is_rate_slope_of_price; lra. Defined.

(** X5: on positive S, K, sigma, T and for every option type, 365 times the
    theta returned is minus the derivative of the price with respect to the
    time to expiry: theta is the daily decay of the price as expiry nears. *)
Theorem theta_is_time_decay_of_price (S K r sigma T : R)
  (option_type : string) :
  0 < S -> 0 < K -> 0 < sigma -> 0 < T ->
  exists theta,
    dict_get (calculate_greeks S K r sigma T option_type) "theta" = Ok theta
    /\ derivable_pt_lim
         (fun t => calculate_option_price S K r sigma t option_type)
         T (- (365 * theta)).
Proof.
  intros HS HK Hsigma HT.
  pose proof (price_slope_time S K r sigma T option_type HS HK Hsigma HT) as H.
  pose proof (sqrt_T_pos T HT) as Hq.
  cbv zeta in H.
  destruct (String.eqb_spec (lower option_type) "call") as [E | E].
  - rewrite (greeks_call_branch _ _ _ _ _ _ E). eexists.
    split; [reflexivity |]. eapply dlim_val; [exact H | field; lra].
  - rewrite (greeks_put_branch _ _ _ _ _ _ E). eexists.
    split; [reflexivity |]. eapply dlim_val; [exact H | field; lra].
Qed.

Lemma theta_is_time_decay_of_price_witness :
  exists theta,
    dict_get (calculate_greeks 100 100 0.05 0.2 1 "call") "theta" = Ok theta
    /\ derivable_pt_lim
         (fun t => calculate_option_price 100 100 0.05 0.2 t "call")
         1 (- (365 * theta)).
Proof. apply theta_is_time_decay_of_price; lra. Defined.

(** ** Relations between the values returned *)

Lemma norm_cdf_increasing (x y : R) : x < y -> norm_cdf x < norm_cdf y.
Proof.
  intro Hxy.
  destruct (MVT_cor2 norm_cdf norm_pdf x y Hxy) as (c & Hc & _).
  - intros t _. apply norm_cdf_derivable.
  - pose proof (norm_pdf_pos c). nra.
Qed.

(** X6: on positive S, K, sigma, T the two intermediate terms returned by
    [calculate_d1_d2] satisfy S phi(d1) = K exp(-rT) phi(d2), the identity
    that lets gamma and vega be computed from d1 alone. *)
Theorem d1_d2_density_identity (S K r sigma T : R) :
  0 < S -> 0 < K -> 0 < sigma -> 0 < T ->
  let '(d1, d2) := calculate_d1_d2 S K r sigma T in
  S * norm_pdf d1 = K * exp (- (r * T)) * norm_pdf d2.
Proof.
  intros HS HK Hsigma HT. rewrite calculate_d1_d2_terms.
  apply pdf_d1_d2; assumption.
Qed.

Lemma d1_d2_density_identity_witness :
  let '(d1, d2) := calculate_d1_d2 100 100 0.05 0.2 1 in
  100 * norm_pdf d1 = 100 * exp (- (0.05 * 1)) * norm_pdf d2.
Proof. apply d1_d2_density_identity; lra. Defined.

(** X7: on positive S, K, sigma, T the Greeks of a Call and of a Put on the
    same inputs differ by the derivatives of S - K exp(-rT): the deltas by
    1, the thetas by -r K exp(-rT) / 365 and the rhos by
    K T exp(-rT) / 100. *)
Theorem greeks_put_call_differences (S K r sigma T : R) :
  0 < S -> 0 < K -> 0 < sigma -> 0 < T ->
  exists delta_c delta_p theta_c theta_p rho_c rho_p,
    dict_get (calculate_greeks S K r sigma T "call") "delta" = Ok delta_c
    /\ dict_get (calculate_greeks S K r sigma T "put") "delta" = Ok delta_p
    /\ dict_get (calculate_greeks S K r sigma T "call") "theta" = Ok theta_c
    /\ dict_get (calculate_greeks S K r sigma T "put") "theta" = Ok theta_p
    /\ dict_get (calculate_greeks S K r sigma T "call") "rho" = Ok rho_c
    /\ dict_get (calculate_greeks S K r sigma T "put") "rho" = Ok rho_p
    /\ delta_c - delta_p = 1
    /\ theta_c - theta_p = - (r * K * exp (- (r * T))) / 365
    /\ rho_c - rho_p = K * T * exp (- (r * T)) / 100.
Proof.
  intros _ _ _ HT. pose proof (sqrt_T_pos T HT) as Hq.
  rewrite greeks_call_branch by reflexivity.
  rewrite greeks_put_branch by discriminate.
  do 6 eexists. repeat (split; [reflexivity |]).
  rewrite norm_cdf_opp. repeat split; field; lra.
Qed.

Lemma greeks_put_call_differences_witness :
  exists delta_c delta_p theta_c theta_p rho_c rho_p,
    dict_get (calculate_greeks 100 100 0.05 0.2 1 "call") "delta" = Ok delta_c
    /\ dict_get (calculate_greeks 100 100 0.05 0.2 1 "put") "delta" = Ok delta_p
    /\ dict_get (calculate_greeks 100 100 0.05 0.2 1 "call") "theta" = Ok theta_c
    /\ dict_get (calculate_greeks 100 100 0.05 0.2 1 "put") "theta" = Ok theta_p
    /\ dict_get (calculate_greeks 100 100 0.05 0.2 1 "call") "rho" = Ok rho_c
    /\ dict_get (calculate_greeks 100 100 0.05 0.2 1 "put") "rho" = Ok rho_p
    /\ delta_c - delta_p = 1
    /\ theta_c - theta_p = - (0.05 * 100 * exp (- (0.05 * 1))) / 365
    /\ rho_c - rho_p = 100 * 1 * exp (- (0.05 * 1)) / 100.
Proof. apply greeks_put_call_differences; lra. Defined.

(** X8: on positive sigma and T, with the spot at or above the strike and a
    non-negative rate, the Call delta is at least one half and the Put delta
    at least minus one half. *)
Theorem delta_at_or_in_the_money (S K r sigma T : R) :
  0 < K -> K <= S -> 0 <= r -> 0 < sigma -> 0 < T ->
  exists delta_c delta_p,
    dict_get (calculate_greeks S K r sigma T "call") "delta" = Ok delta_c
    /\ dict_get (calculate_greeks S K r sigma T "put") "delta" = Ok delta_p
    /\ 1 / 2 <= delta_c
    /\ - (1 / 2) <= delta_p.
Proof.
  intros HK HS Hr Hsigma HT.
  rewrite greeks_call_branch by reflexivity.
  rewrite greeks_put_branch by discriminate.
  do 2 eexists. do 2 (split; [reflexivity |]).
  assert (Hd1 : 0 < d1_term S K r sigma T).
  { unfold d1_term. apply Rdiv_lt_0_compat.
    - assert (0 <= ln (S / K)).
      { rewrite <- ln_1.
        destruct (Req_dec S K) as [-> | Hne].
        - right. f_equal. field. lra.
        - left. apply ln_increasing; [lra |].
          apply (Rmult_lt_reg_r K); [exact HK |].
          unfold Rdiv. rewrite Rmult_assoc, Rinv_l by lra. lra. }
      assert (0 < (r + 0.5 * sigma ^ 2) * T).
      { apply Rmult_lt_0_compat; [| exact HT]. simpl. nra. }
      lra.
    - apply sigma_sqrt_T_pos; assumption. }
  pose proof (norm_cdf_increasing _ _ Hd1) as H. rewrite norm_cdf_0 in H.
  split; lra.
Qed.

Lemma delta_at_or_in_the_money_witness :
  exists delta_c delta_p,
    dict_get (calculate_greeks 100 100 0.05 0.2 1 "call") "delta" = Ok delta_c
    /\ dict_get (calculate_greeks 100 100 0.05 0.2 1 "put") "delta" = Ok delta_p
    /\ 1 / 2 <= delta_c
    /\ - (1 / 2) <= delta_p.
Proof. apply delta_at_or_in_the_money; lra. Defined.

(** * Further behaviour of the sweep *)

(** X11: a sweep with no point returns empty series, and a sweep with one
    point evaluates the lower end of the swept interval only. *)
Theorem sweep_zero_or_one_point (S K r sigma T : R)
  (option_type param : string) (range_pct lo hi : R) (vary : string) :
  sweep_plan param S K sigma T range_pct = Some (lo, hi, vary) ->
  generate_sensitivity_data S K r sigma T option_type param range_pct 0
  = Ok ([], [],
        [("delta", []); ("gamma", []); ("vega", []); ("theta", []);
         ("rho", [])])
  /\ exists price greeks,
       generate_sensitivity_data S K r sigma T option_type param range_pct 1
       = Ok ([lo], [price], greeks)
       /\ price = price_of (substitute param lo S K r sigma T) option_type
       /\ forall name value,
            dict_get (greeks_of (substitute param lo S K r sigma T)
                                option_type) name = Ok value ->
            dict_get greeks name = Ok [value].
Proof.
  intro plan. split.
  - apply (generate_sensitivity_data_ok _ _ _ _ _ _ _ _ _ _ _ plan 0 []).
    reflexivity.
  - assert (Hlin : linspace lo hi 1 = Ok [lo]).
    { unfold linspace. simpl. do 2 f_equal. ring. }
    do 2 eexists. split; [| split].
    + apply (generate_sensitivity_data_ok _ _ _ _ _ _ _ _ _ _ _ plan 1 [lo]).
      exact Hlin.
    + reflexivity.
    + intros name value. rewrite greeks_shape. unfold greeks_series.
      cbn [dict_get map].
      repeat (destruct (String.eqb _ name);
              [intro H; injection H as <-; reflexivity |]).
      discriminate.
Qed.

Lemma sweep_zero_or_one_point_witness :
  generate_sensitivity_data 100 100 0.05 0.2 1 "call" "time" 0.2 0
  = Ok ([], [],
        [("delta", []); ("gamma", []); ("vega", []); ("theta", []);
         ("rho", [])]).
Proof.
  apply (sweep_zero_or_one_point 100 100 0.05 0.2 1 "call" "time" 0.2
           0.01 1 "T").
  reflexivity.
Defined.

(** * Time to expiry, further *)

(** X12: whole days only count.  A target n >= 1 whole days and less than
    one further day after now gives exactly n / 365: the fraction of a day
    is dropped and the floor plays no part. *)
Theorem time_to_expiry_whole_days (now : datetime) (n extra : Z) :
  (1 <= n)%Z -> (0 <= extra < us_per_day)%Z ->
  calculate_time_to_expiry now (now + n * us_per_day + extra)%Z
  = IZR n / 365.
Proof.
  intros Hn Hextra. unfold calculate_time_to_expiry.
  cbn [days datetime_sub].
  replace ((now + n * us_per_day + extra - now) / us_per_day)%Z with n.
  - apply Rmax_left. apply IZR_le in Hn. lra.
  - replace (now + n * us_per_day + extra - now)%Z
      with (extra + n * us_per_day)%Z by ring.
    rewrite Z.div_add by (unfold us_per_day; lia).
    rewrite Z.div_small by exact Hextra. reflexivity.
Qed.

Lemma time_to_expiry_whole_days_witness :
  calculate_time_to_expiry 0%Z (0 + 30 * us_per_day + 43200000000)%Z
  = 30 / 365.
Proof.
  apply (time_to_expiry_whole_days 0%Z 30%Z 43200000000%Z);
    unfold us_per_day; lia.
Defined.

(** X13: the time to expiry never decreases when the target moves later, and
    never increases when the clock advances. *)
Theorem time_to_expiry_monotone (now now' target target' : datetime) :
  (now' <= now)%Z -> (target <= target')%Z ->
  calculate_time_to_expiry now target
  <= calculate_time_to_expiry now' target'.
Proof.
  intros Hnow Htarget. unfold calculate_time_to_expiry.
  cbn [days datetime_sub].
  assert (Hdiv : ((target - now) / us_per_day
                  <= (target' - now') / us_per_day)%Z)
    by (apply Z.div_le_mono; unfold us_per_day; lia).
  apply IZR_le in Hdiv.
  apply Rmax_lub.
  - eapply Rle_trans; [| apply Rmax_l]. lra.
  - apply Rmax_r.
Qed.

Lemma time_to_expiry_monotone_witness :
  calculate_time_to_expiry 10%Z 20%Z <= calculate_time_to_expiry 5%Z 30%Z.
Proof. apply time_to_expiry_monotone; lia. Defined.

(** * Historical volatility, further *)

Lemma dropna_pct_change_from (prev : R) (p : list R) :
  Forall (fun x => x <> 0) (prev :: p) ->
  dropna (pct_change_from prev p) = map Fin (returns_from prev p).
Proof.
  revert prev. induction p as [| x p IH]; intros prev H; [reflexivity |].
  inversion H as [| ? ? Hprev Hp]; subst.
  cbn [pct_change_from returns_from map]. rewrite (pct_entry _ _ Hprev).
  cbn [dropna]. rewrite (IH _ Hp). reflexivity.
Qed.

Lemma dropna_pct_change (p : list R) :
  Forall (fun x => x <> 0) p ->
  dropna (pct_change p) = map Fin (simple_returns p).
Proof.
  destruct p; [reflexivity |]. intro H. cbn [pct_change dropna].
  apply dropna_pct_change_from, H.
Qed.

Lemma length_returns_from (prev : R) (p : list R) :
  length (returns_from prev p) = length p.
Proof.
  revert prev. induction p as [| x p IH]; intro prev; [reflexivity |].
  cbn [returns_from length]. rewrite IH. reflexivity.
Qed.

Lemma length_simple_returns (p : list R) :
  length (simple_returns p) = (length p - 1)%nat.
Proof.
  destruct p; [reflexivity |]. cbn [simple_returns length].
  rewrite length_returns_from. lia.
Qed.

Lemma last_map_seq {A : Type} (f : nat -> A) (n : nat) (d : A) :
  last (map f (seq 0 (S n))) d = f n.
Proof.
  rewrite seq_S, map_app. cbn [map]. apply last_last.
Qed.

Lemma prep_values_Fin (l : list R) : prep_values (map Fin l) = map Some l.
Proof. unfold prep_values. rewrite map_map. reflexivity. Qed.

Lemma observations_Some (l : list R) : observations (map Some l) = l.
Proof.
  induction l as [| x l IH]; [reflexivity |].
  cbn [map observations]. rewrite IH. reflexivity.
Qed.

Lemma window_at_map {A B : Type} (f : A -> B) (l : list A) (w i : nat) :
  window_at (map f l) w i = map f (window_at l w i).
Proof. unfold window_at. rewrite skipn_map, firstn_map. reflexivity. Qed.

(** The rolling standard deviation of a Series of numbers. *)
Lemma rolling_std_Fin (w : Z) (l : list R) :
  (0 <= w)%Z ->
  l <> [] ->
  ((2 ^ 63 <=? w) && (Z.of_nat (length l) <? 2 ^ 63))%Z = false ->
  rolling_std w (map Fin l)
  = Ok (map (fun i =>
               let obs := window_at l (Z.to_nat w) i in
               let nobs := length obs in
               if (Z.to_nat w <=? nobs)%nat && (1 <? nobs)%nat
               then Some (sqrt (sample_var obs))
               else None)
            (seq 0 (length l))).
Proof.
  intros Hw Hl Hfit. unfold rolling_std.
  destruct (Z.ltb_spec w 0) as [H | _]; [lia |].
  destruct l as [| x l]; [contradiction |].
  cbn [map]. change (Fin x :: map Fin l) with (map Fin (x :: l)).
  rewrite length_map, Hfit, prep_values_Fin.
  f_equal. apply map_ext. intro i. cbv zeta.
  rewrite window_at_map, observations_Some. reflexivity.
Qed.

(** The last entry of the rolling series: the standard deviation of the last
    [w] observations if there are that many and more than one, else NaN. *)
Lemma calculate_historical_volatility_last (price_data : list R) (window : Z) :
  Forall (fun x => x <> 0) price_data ->
  (0 <= window)%Z ->
  (2 <= length price_data)%nat ->
  ((2 ^ 63 <=? window)
   && (Z.of_nat (length (simple_returns price_data)) <? 2 ^ 63))%Z = false ->
  calculate_historical_volatility price_data window
  = Ok (if (Z.to_nat window <=? length (simple_returns price_data))%nat
           && (1 <? Z.to_nat window)%nat
        then Some (sqrt (sample_var
                           (lastn (Z.to_nat window)
                                  (simple_returns price_data)))
                   * sqrt 252)
        else None).
Proof.
  intros Hp Hw Hlen Hfit. unfold calculate_historical_volatility.
  rewrite (dropna_pct_change _ Hp).
  set (rets := simple_returns price_data) in *.
  assert (Hn : length rets = (length price_data - 1)%nat)
    by apply length_simple_returns.
  destruct (length rets) as [| n] eqn:En; [lia |].
  rewrite rolling_std_Fin;
    [| exact Hw | intro E; rewrite E in En; discriminate
     | rewrite En; exact Hfit].
  cbn [bind]. rewrite !length_map, length_seq, En.
  change (0 <? S n)%nat with true. cbv iota.
  rewrite map_map, last_map_seq. cbv beta zeta.
  set (w := Z.to_nat window).
  assert (Hwin : length (window_at rets w n) = Nat.min w (S n)).
  { unfold window_at. rewrite length_firstn, length_skipn, En. lia. }
  rewrite Hwin.
  destruct (Nat.leb_spec w (S n)) as [Hle | Hgt].
  - rewrite Nat.min_l by exact Hle. rewrite Nat.leb_refl. cbn [andb].
    destruct (1 <? w)%nat; [| reflexivity].
    cbn [option_map].
    assert (Hlast : window_at rets w n = lastn w rets).
    { unfold window_at, lastn. rewrite En.
      replace (n + 1 - w)%nat with (S n - w)%nat by lia.
      apply firstn_all2. rewrite length_skipn, En. lia. }
    rewrite Hlast. reflexivity.
  - rewrite Nat.min_r by lia.
    destruct (Nat.leb_spec w (S n)) as [Hle' | _]; [lia |]. reflexivity.
Qed.

(** X14: a negative window is rejected: the rolling window raises a
    ValueError whatever the price series is, the empty one included. *)
Theorem historical_volatility_negative_window (price_data : list R)
  (window : Z) :
  (window < 0)%Z ->
  calculate_historical_volatility price_data window = Raise ValueError.
Proof.
  intro Hw. unfold calculate_historical_volatility, rolling_std.
  destruct (Z.ltb_spec window 0) as [_ | H]; [reflexivity | lia].
Qed.

Lemma historical_volatility_negative_window_witness :
  calculate_historical_volatility [] (-1) = Raise ValueError.
Proof. apply historical_volatility_negative_window. lia. Defined.

(** X15: with two prices or more, none of them zero, the fallback is not
    taken.  When the window is narrower than two, or wider than the number
    of returns and below 2^63, the result is NaN; a window of 2^63 or more
    does not fit the 64-bit window bounds and raises an OverflowError. *)
Theorem historical_volatility_unfilled_window (price_data : list R)
  (window : Z) :
  Forall (fun x => x <> 0) price_data ->
  (2 <= length price_data)%nat ->
  ((0 <= window < 2
    \/ Z.of_nat (length price_data) - 1 < window < 2 ^ 63)%Z ->
   calculate_historical_volatility price_data window = Ok None)
  /\ ((2 ^ 63 <= window)%Z ->
      (Z.of_nat (length price_data) <= 2 ^ 63)%Z ->
      calculate_historical_volatility price_data window
      = Raise OverflowError).
Proof.
  intros Hp Hlen. split.
  - intro Hw.
    rewrite calculate_historical_volatility_last; try assumption; try lia.
    rewrite length_simple_returns.
    destruct Hw as [Hw | Hw].
    + destruct (Nat.ltb_spec 1 (Z.to_nat window)) as [H | _]; [lia |].
      rewrite andb_false_r. reflexivity.
    + destruct (Nat.leb_spec (Z.to_nat window) (length price_data - 1))
        as [H | _]; [lia | reflexivity].
  - intros Hw Hfit. unfold calculate_historical_volatility, rolling_std.
    rewrite (dropna_pct_change _ Hp).
    destruct (Z.ltb_spec window 0) as [H | _]; [lia |].
    pose proof (length_simple_returns price_data) as Hn.
    destruct (simple_returns price_data) as [| x rets] eqn:E;
      [simpl in Hn; lia |].
    cbn [map]. change (Fin x :: map Fin rets) with (map Fin (x :: rets)).
    rewrite length_map, Hn.
    destruct (Z.leb_spec (2 ^ 63) window) as [_ | H]; [| lia].
    destruct (Z.ltb_spec (Z.of_nat (length price_data - 1)) (2 ^ 63))
      as [_ | H]; [reflexivity | lia].
Qed.

Lemma historical_volatility_unfilled_window_witness :
  calculate_historical_volatility [100; 101; 103] 30 = Ok None.
Proof.
  apply historical_volatility_unfilled_window;
    [repeat constructor; lra | simpl; lia | simpl; lia].
Defined.

(** X16: on a series without zero prices, when the window holds between
    two returns and all of them, the result is the sample standard deviation
    of the last [window] simple returns, annualized by the square root of
    252, and it is not negative. *)
Theorem historical_volatility_filled_window (price_data : list R)
  (window : Z) :
  Forall (fun x => x <> 0) price_data ->
  (2 <= window <= Z.of_nat (length price_data) - 1)%Z ->
  exists volatility,
    calculate_historical_volatility price_data window = Ok (Some volatility)
    /\ volatility
       = sqrt (sample_var (lastn (Z.to_nat window)
                                 (simple_returns price_data)))
         * sqrt 252
    /\ 0 <= volatility.
Proof.
  intros Hp Hw.
  assert (Hfit : ((2 ^ 63 <=? window)
                  && (Z.of_nat (length (simple_returns price_data))
                      <? 2 ^ 63))%Z = false).
  { rewrite length_simple_returns.
    destruct (Z.leb_spec (2 ^ 63) window) as [H | _]; [| reflexivity].
    destruct (Z.ltb_spec (Z.of_nat (length price_data - 1)) (2 ^ 63))
      as [H' | _]; [lia | reflexivity]. }
  rewrite calculate_historical_volatility_last; try assumption; try lia.
  rewrite length_simple_returns.
  destruct (Nat.leb_spec (Z.to_nat window) (length price_data - 1))
    as [_ | H]; [| lia].
  destruct (Nat.ltb_spec 1 (Z.to_nat window)) as [_ | H]; [| lia].
  cbn [andb]. eexists. split; [reflexivity |]. split; [reflexivity |].
  apply Rmult_le_pos; apply sqrt_pos.
Qed.

Lemma historical_volatility_filled_window_witness :
  exists volatility,
    calculate_historical_volatility [100; 101; 103; 102] 3
    = Ok (Some volatility)
    /\ volatility
       = sqrt (sample_var (lastn 3 (simple_returns [100; 101; 103; 102])))
         * sqrt 252
    /\ 0 <= volatility.
Proof.
  apply (historical_volatility_filled_window [100; 101; 103; 102] 3);
    [repeat constructor; lra | simpl; lia].
Defined.

Lemma returns_from_scale (c prev : R) (p : list R) :
  c <> 0 -> prev <> 0 -> Forall (fun x => x <> 0) p ->
  returns_from (c * prev) (map (Rmult c) p) = returns_from prev p.
Proof.
  intros Hc. revert prev. induction p as [| x p IH]; intros prev Hprev Hp;
    [reflexivity |].
  inversion Hp as [| ? ? Hx Hp']; subst.
  cbn [map returns_from]. rewrite IH by assumption.
  f_equal. field. split; assumption.
Qed.

(** X17: the historical volatility does not depend on the unit of the
    prices: multiplying every price of a series without zeros by the same
    non-zero factor leaves the result unchanged. *)
Theorem historical_volatility_scale_invariant (price_data : list R)
  (window : Z) (c : R) :
  c <> 0 -> Forall (fun x => x <> 0) price_data ->
  calculate_historical_volatility (map (Rmult c) price_data) window
  = calculate_historical_volatility price_data window.
Proof.
  intros Hc Hp. unfold calculate_historical_volatility.
  assert (Hcp : Forall (fun x => x <> 0) (map (Rmult c) price_data)).
  { apply Forall_map. eapply Forall_impl; [| exact Hp].
    intros x Hx. cbv beta. apply Rmult_integral_contrapositive_currified;
      assumption. }
  rewrite (dropna_pct_change _ Hp), (dropna_pct_change _ Hcp).
  destruct price_data as [| x p]; [reflexivity |].
  inversion Hp as [| ? ? Hx Hp']; subst.
  cbn [map simple_returns]. rewrite returns_from_scale by assumption.
  reflexivity.
Qed.

Lemma historical_volatility_scale_invariant_witness :
  calculate_historical_volatility (map (Rmult 100) [1; 2; 4]) 2
  = calculate_historical_volatility [1; 2; 4] 2.
Proof.
  apply historical_volatility_scale_invariant;
    [lra | repeat constructor; lra].
Defined.

(** * The application script *)

Lemma min_from_seq (key : nat -> R) (m best start : nat) :
  (best < start)%nat ->
  (forall j, (j < start)%nat -> key best <= key j) ->
  (forall j, (j < best)%nat -> key best < key j) ->
  let idx := App.min_from key best (seq start m) in
  (idx < start + m)%nat
  /\ (forall j, (j < start + m)%nat -> key idx <= key j)
  /\ (forall j, (j < idx)%nat -> key idx < key j).
Proof.
  revert best start. induction m as [| m IH]; intros best start Hb Hmin Hfirst.
  - cbn. rewrite Nat.add_0_r. auto.
  - cbn [seq App.min_from].
    destruct (Rlt_dec (key start) (key best)) as [Hlt | Hge].
    + destruct (IH start (S start)) as (H1 & H2 & H3).
      * lia.
      * intros j Hj. destruct (Nat.eq_dec j start) as [-> | Hne]; [lra |].
        assert (key best <= key j) by (apply Hmin; lia). lra.
      * intros j Hj. assert (key best <= key j) by (apply Hmin; lia). lra.
      * cbv zeta. repeat split.
        -- lia.
        -- intros j Hj. apply H2. lia.
        -- exact H3.
    + destruct (IH best (S start)) as (H1 & H2 & H3).
      * lia.
      * intros j Hj. destruct (Nat.eq_dec j start) as [-> | Hne]; [lra |].
        apply Hmin. lia.
      * exact Hfirst.
      * cbv zeta. repeat split.
        -- lia.
        -- intros j Hj. apply H2. lia.
        -- exact H3.
Qed.

(** X18: for a non-empty list of strikes the default strike index is in
    range, no strike is closer to the current price than the one it names,
    and every strike before it is strictly farther; for an empty list the
    selection raises a ValueError. *)
Theorem closest_strike_is_nearest (available_strikes : list R)
  (current_price : R) :
  (available_strikes <> [] ->
   exists idx,
     App.closest_strike_idx available_strikes current_price = Ok idx
     /\ (idx < length available_strikes)%nat
     /\ (forall j, (j < length available_strikes)%nat ->
         Rabs (nth idx available_strikes 0 - current_price)
         <= Rabs (nth j available_strikes 0 - current_price))
     /\ (forall j, (j < idx)%nat ->
         Rabs (nth idx available_strikes 0 - current_price)
         < Rabs (nth j available_strikes 0 - current_price)))
  /\ App.closest_strike_idx [] current_price = Raise ValueError.
Proof.
  split; [| reflexivity]. intro Hne.
  destruct available_strikes as [| a l]; [contradiction |].
  unfold App.closest_strike_idx. cbn [length seq App.py_min].
  set (key := fun i => Rabs (nth i (a :: l) 0 - current_price)).
  destruct (min_from_seq key (length l) 0 1) as (H1 & H2 & H3).
  - lia.
  - intros j Hj. assert (j = 0%nat) by lia. subst j. lra.
  - intros j Hj. lia.
  - eexists. split; [reflexivity |]. repeat split.
    + exact H1.
    + intros j Hj. apply (H2 j). exact Hj.
    + intros j Hj. apply (H3 j). exact Hj.
Qed.

Lemma closest_strike_is_nearest_witness :
  exists idx,
    App.closest_strike_idx [90; 95; 105; 110] 100 = Ok idx
    /\ (idx < 4)%nat
    /\ (forall j, (j < 4)%nat ->
        Rabs (nth idx [90; 95; 105; 110] 0 - 100)
        <= Rabs (nth j [90; 95; 105; 110] 0 - 100))
    /\ (forall j, (j < idx)%nat ->
        Rabs (nth idx [90; 95; 105; 110] 0 - 100)
        < Rabs (nth j [90; 95; 105; 110] 0 - 100)).
Proof.
  apply (closest_strike_is_nearest [90; 95; 105; 110] 100). discriminate.
Defined.

(** X19: over any grid of spot prices the payoff is never negative and the
    profit or loss never falls below minus the option price, the "Max Loss"
    shown; for a Put with a non-negative strike on non-negative spot prices it
    never exceeds the strike minus the option price, the "Max Profit"
    shown. *)
Theorem profit_loss_bounds (option_type : string)
  (strike_price option_price : R) (spot_range_payoff : list R) (i : nat) :
  (i < length spot_range_payoff)%nat ->
  let payoff := App.payoff option_type strike_price spot_range_payoff in
  let profit_loss := App.profit_loss payoff option_price in
  length payoff = length spot_range_payoff
  /\ length profit_loss = length spot_range_payoff
  /\ 0 <= nth i payoff 0
  /\ - option_price <= nth i profit_loss 0
  /\ (lower option_type <> "call" ->
      0 <= strike_price ->
      0 <= nth i spot_range_payoff 0 ->
      nth i profit_loss 0 <= strike_price - option_price).
Proof.
  intros Hi. cbv zeta. unfold App.profit_loss, App.payoff.
  destruct (String.eqb_spec (lower option_type) "call") as [E | E];
    rewrite !length_map;
    (split; [reflexivity |]); (split; [reflexivity |]);
    rewrite !(nth_map_lt _ _ _ 0) by (rewrite ?length_map; exact Hi).
  - pose proof (Rmax_r (nth i spot_range_payoff 0 - strike_price) 0).
    repeat split; try lra. intro; contradiction.
  - pose proof (Rmax_r (strike_price - nth i spot_range_payoff 0) 0).
    repeat split; try lra. intros _ HK Hs.
    assert (Rmax (strike_price - nth i spot_range_payoff 0) 0 <= strike_price)
      by (apply Rmax_lub; lra).
    lra.
Qed.

Lemma profit_loss_bounds_witness :
  - 5 <= nth 1 (App.profit_loss (App.payoff "Put" 100 [80; 120]) 5) 0.
Proof.
  apply (profit_loss_bounds "Put" 100 5 [80; 120] 1). simpl. lia.
Defined.

(** X20: at the breakeven price shown, the profit or loss is zero: wherever
    the grid holds the breakeven price and the option price is not
    negative, the profit-or-loss curve crosses zero. *)
Theorem breakeven_has_zero_profit (option_type : string)
  (strike_price option_price : R) (spot_range_payoff : list R) (i : nat) :
  (i < length spot_range_payoff)%nat ->
  0 <= option_price ->
  nth i spot_range_payoff 0
  = App.breakeven option_type strike_price option_price ->
  nth i (App.profit_loss
           (App.payoff option_type strike_price spot_range_payoff)
           option_price) 0 = 0.
Proof.
  intros Hi Hprice Hbe. unfold App.profit_loss, App.payoff, App.breakeven in *.
  destruct (String.eqb_spec (lower option_type) "call") as [E | E];
    rewrite !(nth_map_lt _ _ _ 0) by (rewrite ?length_map; exact Hi);
    rewrite Hbe.
  - replace (strike_price + option_price - strike_price) with option_price
      by ring.
    rewrite Rmax_left by exact Hprice. ring.
  - replace (strike_price - (strike_price - option_price)) with option_price
      by ring.
    rewrite Rmax_left by exact Hprice. ring.
Qed.

Lemma breakeven_has_zero_profit_witness :
  nth 1 (App.profit_loss (App.payoff "Call" 100 [90; 105; 120]) 5) 0 = 0.
Proof.
  apply (breakeven_has_zero_profit "Call" 100 5 [90; 105; 120] 1);
    [simpl; lia | lra | unfold App.breakeven; simpl; lra].
Defined.

(** X21: the sensitivity tab cannot fail on what its widgets offer.  For
    each of the four parameter labels, each of the five Greek names and any
    option type, the sweep, the marker of the current value and the series
    of the chosen Greek are obtained without error; the three series have
    50 points; the marker is the current value of the swept input, and it
    lies between the first and the last swept value when spot, strike and
    volatility are not negative and T is at least 0.01.  A label outside the
    four raises a KeyError. *)
Theorem sensitivity_tab_total (spot_price strike_price risk_free_rate
  volatility T : R) (option_type sensitivity_param greek_choice : string) :
  (In sensitivity_param
      ["Spot Price"; "Strike Price"; "Volatility"; "Time to Expiry"] ->
   In greek_choice ["Delta"; "Gamma"; "Vega"; "Theta"; "Rho"] ->
   exists x_values prices current_x series,
     App.sensitivity_tab spot_price strike_price risk_free_rate volatility T
       option_type sensitivity_param greek_choice
     = Ok (x_values, prices, current_x, series)
     /\ length x_values = 50%nat
     /\ length prices = 50%nat
     /\ length series = 50%nat
     /\ dict_get [("Spot Price", spot_price); ("Strike Price", strike_price);
                  ("Volatility", volatility); ("Time to Expiry", T)]
                 sensitivity_param = Ok current_x
     /\ (0 <= spot_price -> 0 <= strike_price -> 0 <= volatility ->
         0.01 <= T ->
         nth 0 x_values 0 <= current_x <= nth 49 x_values 0))
  /\ (~ In sensitivity_param
          ["Spot Price"; "Strike Price"; "Volatility"; "Time to Expiry"] ->
      App.sensitivity_tab spot_price strike_price risk_free_rate volatility T
        option_type sensitivity_param greek_choice
      = Raise (KeyError sensitivity_param)).
Proof.
  split.
  - intros Hlabel Hgreek.
    assert (Hplan : exists param lo hi vary current_x,
               dict_get App.param_map sensitivity_param = Ok param
               /\ sweep_plan param spot_price strike_price volatility T 0.2
                  = Some (lo, hi, vary)
               /\ dict_get [("spot", spot_price); ("strike", strike_price);
                            ("volatility", volatility); ("time", T)] param
                  = Ok current_x
               /\ dict_get [("Spot Price", spot_price);
                            ("Strike Price", strike_price);
                            ("Volatility", volatility);
                            ("Time to Expiry", T)] sensitivity_param
                  = Ok current_x
               /\ (0 <= spot_price -> 0 <= strike_price -> 0 <= volatility ->
                   0.01 <= T -> lo <= current_x <= hi)).
    { destruct Hlabel as [<- | [<- | [<- | [<- | []]]]];
        do 5 eexists; (split; [reflexivity |]); (split; [reflexivity |]);
        (split; [reflexivity |]); (split; [reflexivity |]);
        intros; split; lra. }
    destruct Hplan as (param & lo & hi & vary & cur & Hp & plan & Hcur & Hlab
                       & Hrange).
    destruct (linspace_ok lo hi 50) as (xs & Hlin & Hlen & Hnth); [lia |].
    unfold App.sensitivity_tab. rewrite Hp. cbn [bind].
    rewrite (generate_sensitivity_data_ok _ _ _ _ _ _ _ _ _ _ _ plan _ _ Hlin).
    cbn [bind]. rewrite Hcur. cbn [bind].
    assert (Hseries : exists series,
               dict_get
                 (greeks_series
                    (map (fun x => greek_of "delta"
                            (substitute param x spot_price strike_price
                               risk_free_rate volatility T)
                            (lower option_type)) xs)
                    (map (fun x => greek_of "gamma"
                            (substitute param x spot_price strike_price
                               risk_free_rate volatility T)
                            (lower option_type)) xs)
                    (map (fun x => greek_of "vega"
                            (substitute param x spot_price strike_price
                               risk_free_rate volatility T)
                            (lower option_type)) xs)
                    (map (fun x => greek_of "theta"
                            (substitute param x spot_price strike_price
                               risk_free_rate volatility T)
                            (lower option_type)) xs)
                    (map (fun x => greek_of "rho"
                            (substitute param x spot_price strike_price
                               risk_free_rate volatility T)
                            (lower option_type)) xs))
                 (lower greek_choice) = Ok series
               /\ length series = length xs).
    { destruct Hgreek as [<- | [<- | [<- | [<- | [<- | []]]]]];
        eexists; (split; [reflexivity |]); apply length_map. }
    destruct Hseries as (series & Hs & Hslen). rewrite Hs. cbn [bind].
    exists xs. do 3 eexists. split; [reflexivity |].
    rewrite length_map, Hslen.
    split; [exact Hlen |]. split; [exact Hlen |]. split; [exact Hlen |].
    split; [exact Hlab |].
    intros H1 H2 H3 H4. rewrite !Hnth by (simpl; lia).
    rewrite sample_first.
    replace 49%nat with (Z.to_nat 50 - 1)%nat by reflexivity.
    rewrite sample_last by lia. apply Hrange; assumption.
  - intro Hn. unfold App.sensitivity_tab, App.param_map. cbn [dict_get].
    destruct (String.eqb_spec "Spot Price" sensitivity_param) as [<- | _];
      [exfalso; apply Hn; simpl; auto |].
    destruct (String.eqb_spec "Strike Price" sensitivity_param) as [<- | _];
      [exfalso; apply Hn; simpl; auto |].
    destruct (String.eqb_spec "Volatility" sensitivity_param) as [<- | _];
      [exfalso; apply Hn; simpl; auto |].
    destruct (String.eqb_spec "Time to Expiry" sensitivity_param) as [<- | _];
      [exfalso; apply Hn; simpl; auto |].
    reflexivity.
Qed.

Lemma sensitivity_tab_total_witness :
  exists x_values prices current_x series,
    App.sensitivity_tab 150 150 0.05 0.2 0.25 "Put" "Volatility" "Vega"
    = Ok (x_values, prices, current_x, series)
    /\ length x_values = 50%nat
    /\ length prices = 50%nat
    /\ length series = 50%nat.
Proof.
  destruct (sensitivity_tab_total 150 150 0.05 0.2 0.25 "Put" "Volatility"
              "Vega") as [H _].
  destruct H as (x & p & c & s & H & Hx & Hp & Hs & _);
    [simpl; auto | simpl; auto |].
  exists x, p, c, s. repeat split; assumption.
Defined.

(** * The engine in double precision *)

Lemma holds_ext (v : float64) (x y : R) : holds v x -> x = y -> holds v y.
Proof. intros H <-. exact H. Qed.

Ltac holds_step :=
  first [ eassumption
        | apply holds_Fin
        | eapply holds_fsub
        | eapply holds_fadd
        | eapply holds_fneg
        | eapply holds_fmul
        | eapply holds_fsqrt ].

Lemma truediv_ok (S K : Ieee.number) (k : R) :
  holds (Ieee.val K) k -> k <> 0 ->
  Ieee.truediv S K = Ok (fdiv (Ieee.val S) (Ieee.val K)).
Proof.
  intros HK Hk. unfold Ieee.truediv.
  destruct S as [x | x], K as [y | y]; try reflexivity.
  cbn in HK. destruct (is_zero y) eqn:E; [| reflexivity].
  apply (is_zero_holds _ _ HK) in E. contradiction.
Qed.

Lemma truediv_zero (x y : float64) :
  is_zero y = true ->
  Ieee.truediv (Ieee.PyFloat x) (Ieee.PyFloat y) = Raise ZeroDivisionError.
Proof. intro H. unfold Ieee.truediv. rewrite H. reflexivity. Qed.

(** On the domain of the formulas the two embeddings agree: the doubles
    computed hold the real numbers of the exact formulas, as long as no
    exponential underflows. *)
Section Agreement.

Variables S K r sigma T : Ieee.number.
Variables s k rr sg t : R.
Hypothesis HS : holds (Ieee.val S) s.
Hypothesis HK : holds (Ieee.val K) k.
Hypothesis Hr : holds (Ieee.val r) rr.
Hypothesis Hsigma : holds (Ieee.val sigma) sg.
Hypothesis HT : holds (Ieee.val T) t.
Hypothesis Hs : 0 < s.
Hypothesis Hk : 0 < k.
Hypothesis Hsg : 0 < sg.
Hypothesis Ht : 0 < t.

Lemma ieee_d1_d2 :
  exists d1 d2,
    Ieee.calculate_d1_d2 S K r sigma T = Ok (d1, d2)
    /\ holds d1 (d1_term s k rr sg t)
    /\ holds d2 (d2_term s k rr sg t).
Proof.
  unfold Ieee.calculate_d1_d2.
  rewrite (truediv_ok S K k HK) by lra. cbn [bind].
  assert (Hq : holds (fdiv (Ieee.val S) (Ieee.val K)) (s / k))
    by (apply holds_fdiv; [assumption | assumption | lra]).
  assert (Hden : holds (fmul (Ieee.val sigma) (fsqrt (Ieee.val T)))
                       (sg * sqrt t))
    by (apply holds_fmul; [assumption | apply holds_fsqrt; [assumption | lra]]).
  assert (Hd1 : holds
            (fdiv (fadd (flog (fdiv (Ieee.val S) (Ieee.val K)))
                        (fmul (fadd (Ieee.val r)
                                 (fmul (Fin 0.5)
                                    (fmul (Ieee.val sigma) (Ieee.val sigma))))
                              (Ieee.val T)))
                  (fmul (Ieee.val sigma) (fsqrt (Ieee.val T))))
            (d1_term s k rr sg t)).
  { unfold d1_term. apply holds_fdiv; [| exact Hden |].
    - rewrite (holds_flog _ _ Hq) by (apply Rdiv_lt_0_compat; assumption).
      eapply holds_ext; [repeat holds_step | ring].
    - apply Rgt_not_eq, sigma_sqrt_T_pos; assumption. }
  do 2 eexists. split; [reflexivity |]. split; [exact Hd1 |].
  unfold d2_term. apply holds_fsub; assumption.
Qed.

Lemma ieee_option_price (option_type : string) :
  exp_underflow <= - (rr * t) ->
  exists price,
    Ieee.calculate_option_price S K r sigma T option_type = Ok price
    /\ holds price (calculate_option_price s k rr sg t option_type).
Proof.
  intro Hexp.
  destruct ieee_d1_d2 as (d1 & d2 & E & Hd1 & Hd2).
  unfold Ieee.calculate_option_price. rewrite E. cbn [bind].
  assert (He : fexp (fmul (fneg (Ieee.val r)) (Ieee.val T))
               = Fin (exp (- (rr * t)))).
  { replace (- (rr * t)) with (- rr * t) by ring.
    apply holds_fexp; [repeat holds_step |].
    replace (- rr * t) with (- (rr * t)) by ring. exact Hexp. }
  rewrite He.
  destruct (String.eqb_spec (lower option_type) "call") as [C | C].
  - rewrite (price_call_branch _ _ _ _ _ _ C).
    rewrite (holds_fcdf _ _ Hd1), (holds_fcdf _ _ Hd2).
    eexists. split; [reflexivity |]. repeat holds_step.
  - rewrite (price_put_branch _ _ _ _ _ _ C).
    rewrite (holds_fcdf _ _ (holds_fneg _ _ Hd1)).
    rewrite (holds_fcdf _ _ (holds_fneg _ _ Hd2)).
    eexists. split; [reflexivity |]. repeat holds_step.
Qed.

Lemma ieee_greeks (option_type : string) :
  exp_underflow <= - (rr * t) ->
  exp_underflow <= - (d1_term s k rr sg t * d1_term s k rr sg t) / 2 ->
  exists greeks,
    Ieee.calculate_greeks S K r sigma T option_type = Ok greeks
    /\ Forall2 (fun item exact =>
                  fst item = fst exact /\ holds (snd item) (snd exact))
               greeks (calculate_greeks s k rr sg t option_type).
Proof.
  intros Hexp Hpdf.
  destruct ieee_d1_d2 as (d1 & d2 & E & Hd1 & Hd2).
  unfold Ieee.calculate_greeks. rewrite E. cbn [bind].
  assert (He : fexp (fmul (fneg (Ieee.val r)) (Ieee.val T))
               = Fin (exp (- (rr * t)))).
  { replace (- (rr * t)) with (- rr * t) by ring.
    apply holds_fexp; [repeat holds_step |].
    replace (- rr * t) with (- (rr * t)) by ring. exact Hexp. }
  rewrite He, (holds_fpdf _ _ Hd1 Hpdf).
  pose proof (sqrt_T_pos t Ht) as Hq.
  assert (Hroot : holds (fsqrt (Ieee.val T)) (sqrt t))
    by (apply holds_fsqrt; [assumption | lra]).
  assert (Hden : s * sg * sqrt t <> 0).
  { apply Rgt_not_eq.
    apply Rmult_lt_0_compat; [apply Rmult_lt_0_compat |]; assumption. }
  destruct (String.eqb_spec (lower option_type) "call") as [C | C].
  - rewrite (greeks_call_branch _ _ _ _ _ _ C).
    rewrite (holds_fcdf _ _ Hd1), (holds_fcdf _ _ Hd2).
    eexists. split; [reflexivity |]. cbn [dict_set String.eqb].
    repeat (apply Forall2_cons; [split; [reflexivity |] |]);
      [| | | | | apply Forall2_nil]; cbn [snd].
    + apply holds_Fin.
    + apply holds_fdiv; [apply holds_Fin | repeat holds_step | exact Hden].
    + apply holds_fdiv; [repeat holds_step | apply holds_Fin | lra].
    + apply holds_fdiv; [| apply holds_Fin | lra].
      apply holds_fsub; [| repeat holds_step].
      eapply holds_ext;
        [apply holds_fdiv; [repeat holds_step | repeat holds_step | lra] |].
      reflexivity.
    + apply holds_fdiv; [repeat holds_step | apply holds_Fin | lra].
  - rewrite (greeks_put_branch _ _ _ _ _ _ C).
    rewrite (holds_fcdf _ _ Hd1), (holds_fcdf _ _ (holds_fneg _ _ Hd2)).
    eexists. split; [reflexivity |]. cbn [dict_set String.eqb].
    repeat (apply Forall2_cons; [split; [reflexivity |] |]);
      [| | | | | apply Forall2_nil]; cbn [snd].
    + apply holds_fsub; apply holds_Fin.
    + apply holds_fdiv; [apply holds_Fin | repeat holds_step | exact Hden].
    + apply holds_fdiv; [repeat holds_step | apply holds_Fin | lra].
    + apply holds_fdiv; [| apply holds_Fin | lra].
      apply holds_fadd; [| repeat holds_step].
      eapply holds_ext;
        [apply holds_fdiv; [repeat holds_step | repeat holds_step | lra] |].
      reflexivity.
    + apply holds_fdiv; [repeat holds_step | apply holds_Fin | lra].
Qed.

End Agreement.

(** ** Gamma and vega in double precision *)

Lemma ln_le_minus_1 (x : R) : 0 < x -> ln x <= x - 1.
Proof.
  intro Hx. destruct (Req_dec (ln x) 0) as [E | E].
  - assert (x = 1); [| lra].
    rewrite <- (exp_ln x Hx), E. apply exp_0.
  - pose proof (exp_ineq1 (ln x) E) as H. rewrite (exp_ln x Hx) in H. lra.
Qed.

(** Gamma and vega as computed from the density [p] of d1: the option type
    plays no part. *)
Lemma ieee_gamma_vega (S K r sigma T : Ieee.number) (s sg t p : R)
  (d1 d2 : float64) (option_type : string) :
  Ieee.val S = Fin s -> Ieee.val sigma = Fin sg -> Ieee.val T = Fin t ->
  0 < s -> 0 < sg -> 0 < t ->
  Ieee.calculate_d1_d2 S K r sigma T = Ok (d1, d2) ->
  fpdf d1 = Fin p -> 0 <= p ->
  exists greeks,
    Ieee.calculate_greeks S K r sigma T option_type = Ok greeks
    /\ dict_get greeks "gamma" = Ok (Fin (p / (s * sg * sqrt t)))
    /\ dict_get greeks "vega" = Ok (Fin (s * p * sqrt t / 100)).
Proof.
  intros ES Esigma ET Hs Hsg Ht E Ep Hp.
  pose proof (sqrt_T_pos t Ht) as Hq.
  assert (Hprod : 0 < s * sg) by (apply Rmult_lt_0_compat; assumption).
  assert (Hden : 0 < s * sg * sqrt t)
    by (apply Rmult_lt_0_compat; assumption).
  assert (Hgamma : fdiv (Fin p) (fmul (fmul (Fin s) (Fin sg)) (fsqrt (Fin t)))
                   = Fin (p / (s * sg * sqrt t))).
  { rewrite fsqrt_nonneg, !fmul_nonneg, fdiv_nonneg by lra. reflexivity. }
  assert (Hvega : fdiv (fmul (fmul (Fin s) (Fin p)) (fsqrt (Fin t))) (Fin 100)
                  = Fin (s * p * sqrt t / 100)).
  { assert (0 <= s * p) by (apply Rmult_le_pos; lra).
    assert (0 <= s * p * sqrt t) by (apply Rmult_le_pos; lra).
    rewrite fsqrt_nonneg, !fmul_nonneg, fdiv_nonneg by lra. reflexivity. }
  unfold Ieee.calculate_greeks. rewrite E. cbn [bind].
  rewrite ES, Esigma, ET, Ep, Hgamma, Hvega.
  destruct (String.eqb (lower option_type) "call");
    eexists; repeat split; reflexivity.
Qed.

(** C7, as the code has it: on positive S, K, sigma, T, gamma and vega are
    the same doubles for a Call and a Put and are never negative.  They are
    the closed forms while the density of d1 does not underflow, and both are
    exactly zero, hence not strictly positive, once it does. *)
Theorem gamma_vega_symmetric_nonnegative (S K r sigma T : Ieee.number)
  (s k rr sg t : R) :
  Ieee.val S = Fin s -> Ieee.val K = Fin k -> Ieee.val r = Fin rr ->
  Ieee.val sigma = Fin sg -> Ieee.val T = Fin t ->
  0 < s -> 0 < k -> 0 < sg -> 0 < t ->
  let d1 := d1_term s k rr sg t in
  exists call put gamma vega,
    Ieee.calculate_greeks S K r sigma T "call" = Ok call
    /\ Ieee.calculate_greeks S K r sigma T "put" = Ok put
    /\ dict_get call "gamma" = Ok (Fin gamma)
    /\ dict_get put "gamma" = Ok (Fin gamma)
    /\ dict_get call "vega" = Ok (Fin vega)
    /\ dict_get put "vega" = Ok (Fin vega)
    /\ 0 <= gamma
    /\ 0 <= vega
    /\ (exp_underflow <= - (d1 * d1) / 2 ->
        gamma = norm_pdf d1 / (s * sg * sqrt t)
        /\ vega = s * norm_pdf d1 * sqrt t / 100)
    /\ (- (d1 * d1) / 2 < exp_underflow -> gamma = 0 /\ vega = 0).
Proof.
  intros ES EK Er Esigma ET Hs Hk Hsg Ht d1.
  destruct (ieee_d1_d2 S K r sigma T s k rr sg t) as (v1 & v2 & E & Hd1 & _);
    try assumption; try (left; assumption).
  destruct (fpdf_cases v1 d1 Hd1) as (p & Ep & Hp & Hexact & Hzero).
  destruct (ieee_gamma_vega S K r sigma T s sg t p v1 v2 "call")
    as (call & Ecall & Gcall & Vcall); try assumption.
  destruct (ieee_gamma_vega S K r sigma T s sg t p v1 v2 "put")
    as (put & Eput & Gput & Vput); try assumption.
  pose proof (sqrt_T_pos t Ht) as Hq.
  assert (Hden : 0 < s * sg * sqrt t).
  { apply Rmult_lt_0_compat; [apply Rmult_lt_0_compat |]; assumption. }
  exists call, put, (p / (s * sg * sqrt t)), (s * p * sqrt t / 100).
  do 6 (split; [assumption |]).
  split; [| split; [| split]].
  - apply Rmult_le_pos; [exact Hp | left; apply Rinv_0_lt_compat, Hden].
  - apply Rmult_le_pos; [| lra].
    apply Rmult_le_pos; [apply Rmult_le_pos |]; lra.
  - intro H. rewrite (Hexact H). split; reflexivity.
  - intro H. rewrite (Hzero H). unfold Rdiv. split; ring.
Qed.

Lemma gamma_vega_symmetric_nonnegative_witness :
  exists call put gamma vega,
    Ieee.calculate_greeks
      (Ieee.PyFloat (Fin 100)) (Ieee.PyFloat (Fin 100))
      (Ieee.PyFloat (Fin 0.05)) (Ieee.PyFloat (Fin 0.2))
      (Ieee.PyFloat (Fin 1)) "call" = Ok call
    /\ Ieee.calculate_greeks
         (Ieee.PyFloat (Fin 100)) (Ieee.PyFloat (Fin 100))
         (Ieee.PyFloat (Fin 0.05)) (Ieee.PyFloat (Fin 0.2))
         (Ieee.PyFloat (Fin 1)) "put" = Ok put
    /\ dict_get call "gamma" = Ok (Fin gamma)
    /\ dict_get put "gamma" = Ok (Fin gamma)
    /\ dict_get call "vega" = Ok (Fin vega)
    /\ dict_get put "vega" = Ok (Fin vega)
    /\ 0 <= gamma
    /\ 0 <= vega.
Proof.
  destruct (gamma_vega_symmetric_nonnegative
              (Ieee.PyFloat (Fin 100)) (Ieee.PyFloat (Fin 100))
              (Ieee.PyFloat (Fin 0.05)) (Ieee.PyFloat (Fin 0.2))
              (Ieee.PyFloat (Fin 1)) 100 100 0.05 0.2 1)
    as (call & put & gamma & vega & H1 & H2 & H3 & H4 & H5 & H6 & H7 & H8 & _);
    try reflexivity; try lra.
  exists call, put, gamma, vega. repeat split; assumption.
Defined.

(** At the floor of the time to expiry, a strike ten percent above the spot
    puts d1 below -45. *)
Lemma d1_floor_example : d1_term 100 110 0.05 0.2 0.0001 <= -45.
Proof.
  unfold d1_term.
  assert (Hq : sqrt 0.0001 = 0.01).
  { replace 0.0001 with (0.01 * 0.01) by lra. apply sqrt_square. lra. }
  rewrite Hq.
  assert (Hln : ln (100 / 110) <= 100 / 110 - 1)
    by (apply ln_le_minus_1; lra).
  apply (Rmult_le_reg_r (0.2 * 0.01)); [lra |].
  unfold Rdiv at 1. rewrite Rmult_assoc, Rinv_l by lra. simpl. lra.
Qed.

(** C7 fails as stated: at S = 100, K = 110, r = 0.05, sigma = 0.2 and the
    floor T = 0.0001 the density of d1 underflows, and the gamma and the vega
    returned are zero, not strictly positive. *)
Lemma gamma_vega_zero_at_floor :
  exists greeks gamma vega,
    Ieee.calculate_greeks
      (Ieee.PyFloat (Fin 100)) (Ieee.PyFloat (Fin 110))
      (Ieee.PyFloat (Fin 0.05)) (Ieee.PyFloat (Fin 0.2))
      (Ieee.PyFloat (Fin 0.0001)) "call" = Ok greeks
    /\ dict_get greeks "gamma" = Ok (Fin gamma)
    /\ dict_get greeks "vega" = Ok (Fin vega)
    /\ gamma = 0 /\ vega = 0
    /\ ~ 0 < gamma /\ ~ 0 < vega.
Proof.
  destruct (ieee_d1_d2 (Ieee.PyFloat (Fin 100)) (Ieee.PyFloat (Fin 110))
              (Ieee.PyFloat (Fin 0.05)) (Ieee.PyFloat (Fin 0.2))
              (Ieee.PyFloat (Fin 0.0001)) 100 110 0.05 0.2 0.0001)
    as (v1 & v2 & E & Hd1 & _); try (left; reflexivity); try lra.
  pose proof d1_floor_example as Hd.
  assert (Ep : fpdf v1 = Fin 0).
  { apply (holds_fpdf_underflow _ _ Hd1). unfold exp_underflow.
    generalize dependent (d1_term 100 110 0.05 0.2 0.0001). intros d _ Hd.
    nra. }
  destruct (ieee_gamma_vega
              (Ieee.PyFloat (Fin 100)) (Ieee.PyFloat (Fin 110))
              (Ieee.PyFloat (Fin 0.05)) (Ieee.PyFloat (Fin 0.2))
              (Ieee.PyFloat (Fin 0.0001)) 100 0.2 0.0001 0 v1 v2 "call")
    as (greeks & Eg & G & V); try reflexivity; try lra; try assumption.
  exists greeks. do 2 eexists. split; [exact Eg |].
  split; [exact G |]. split; [exact V |].
  assert (Hg : 0 / (100 * 0.2 * sqrt 0.0001) = 0) by (unfold Rdiv; ring).
  assert (Hv : 100 * 0 * sqrt 0.0001 / 100 = 0) by (unfold Rdiv; ring).
  rewrite Hg, Hv. repeat split; lra.
Qed.

(** ** What the engine does with inputs outside the domain *)



















(** ** The option type *)



